(** * OpenAdapt persistence layer: CRUD helpers, stop-sequence trimming,
      schema migrations and the recordings REST facade.

    Shallow embedding of
    - [openadapt/db/crud.py]
    - [openadapt/alembic/versions/57d78d23087a_add_windowevent_state.py]
    - [openadapt/alembic/versions/8495f5471e23_add_recording_config.py]
    - [openadapt/app/dashboard/api/recordings.py]

    Python objects that are mutated in place (the list of action events, the
    module-level buffers, the database session) are threaded through a small
    state-and-exception monad: a computation maps the store to the store it
    leaves behind together with either a returned value or the raised
    exception.  The store is kept on the exceptional path too, because a
    Python list that was popped before the exception stays popped. *)

From stdpp Require Import base option list strings gmap fin_maps.
From Stdlib Require Import ZArith Lia Floats.SpecFloat.

Local Open Scope string_scope.
Local Open Scope list_scope.
Local Open Scope Z_scope.

(** ** Python runtime: exceptions, the state monad, list indexing *)

Inductive exn : Type :=
| IndexError
| AssertionError
| NoSuchTableError
| OperationalError
| KeyError
| SessionError.

Inductive outcome (A : Type) : Type :=
| Returned (a : A)
| Raised (e : exn).
Arguments Returned {A} a.
Arguments Raised {A} e.

Definition M (S A : Type) : Type := S → S * outcome A.

#[global] Instance M_ret {S} : MRet (M S) := λ A a s, (s, Returned a).
#[global] Instance M_bind {S} : MBind (M S) := λ A B f m s,
  match m s with
  | (s', Returned a) => f a s'
  | (s', Raised e) => (s', Raised e)
  end.

Definition get {S} : M S S := λ s, (s, Returned s).
Definition modify {S} (f : S → S) : M S unit := λ s, (f s, Returned tt).
Definition raise {S A} (e : exn) : M S A := λ s, (s, Raised e).

(** An expression that reads no mutable state but may raise. *)
Definition lift {S A} (o : outcome A) : M S A := λ s, (s, o).

(** [l[i]] for a Python list: a negative [i] counts from the end, and an
    index outside [-len(l) .. len(l)-1] raises IndexError ([None] here). *)
Definition py_index {A} (l : list A) (i : Z) : option A :=
  if bool_decide (0 ≤ i) then l !! Z.to_nat i
  else if bool_decide (- Z.of_nat (length l) ≤ i)
       then l !! Z.to_nat (Z.of_nat (length l) + i)
       else None.

(** [list.pop()]: removes and returns the last element; IndexError on an
    empty list. *)
Definition pop {A} : M (list A) A := λ l,
  match last l with
  | Some x => (removelast l, Returned x)
  | None => (l, Raised IndexError)
  end.

(** [for _ in range(0, n): l.pop()] *)
Fixpoint pop_n {A} (n : nat) : M (list A) unit :=
  match n with
  | O => mret tt
  | S n' => _ ← pop; pop_n n'
  end.

Module crud.

(** ** Values, tables and the module state *)

(** The Python values that travel through this module as column values.  A
    float is carried as data and never computed with. *)
Inductive Any : Type :=
| PyNone
| PyBool (b : bool)
| PyInt (n : Z)
| PyFloat (x : SpecFloat.spec_float)
| PyStr (s : string)
| PyBytes (b : list Byte.byte).

(** What [_insert] reads of a mapped class: [column.name for column in
    table.__table__.columns], in table order. *)
Record Table : Type := {
  tablename : string;
  columns : list string;
}.

(** The attributes of a [Recording] row that this module reads or writes. *)
Record Recording : Type := {
  id : Z;
  timestamp : Any;
  task_description : Any;
}.

(** [sa.engine.Result]; it does not contain the inserted rows. *)
Inductive Result : Type := CursorResult.

(** The calls made on the session [db], in order. *)
Inductive db_call : Type :=
| Execute (table : Table) (to_insert : list (gmap string Any))
| Commit
| QueryRecordingById (recording_id : Z).

(** The module-level buffer lists; [_insert] receives one of them by
    reference, or [None]. *)
Inductive buffer : Type :=
| action_events
| screenshots
| window_events
| performance_stats
| memory_stats.

(** The mutable state of the module and of what it talks to: the session
    [db] (the calls it received), the [Recording] objects the session hands
    out, the five buffers, and the lines sent to [logger.error] and to
    [print]. *)
Record Store : Type := {
  db : list db_call;
  recordings : list Recording;
  buffers : buffer → list (gmap string Any);
  logged_errors : list string;
  stdout : list string;
}.

#[global] Instance buffer_eq_dec : EqDecision buffer.
Proof. solve_decision. Defined.

Definition set_db (f : list db_call → list db_call) (s : Store) : Store :=
  {| db := f (db s); recordings := recordings s; buffers := buffers s;
     logged_errors := logged_errors s; stdout := stdout s |}.

Definition set_recordings (f : list Recording → list Recording) (s : Store) : Store :=
  {| db := db s; recordings := f (recordings s); buffers := buffers s;
     logged_errors := logged_errors s; stdout := stdout s |}.

Definition set_buffer (b : buffer) (rows : list (gmap string Any)) (s : Store) : Store :=
  {| db := db s; recordings := recordings s;
     buffers := λ b', if bool_decide (b' = b) then rows else buffers s b';
     logged_errors := logged_errors s; stdout := stdout s |}.

Definition log_error (line : string) (s : Store) : Store :=
  {| db := db s; recordings := recordings s; buffers := buffers s;
     logged_errors := logged_errors s ++ [line]; stdout := stdout s |}.

Definition print (line : string) (s : Store) : Store :=
  {| db := db s; recordings := recordings s; buffers := buffers s;
     logged_errors := logged_errors s; stdout := stdout s ++ [line] |}.

(** The module as imported: a fresh session and five empty lists. *)
Definition initial_store (rows : list Recording) : Store :=
  {| db := []; recordings := rows; buffers := λ _, [];
     logged_errors := []; stdout := [] |}.

(** ** [_insert] and the [insert_*] functions *)

Definition BATCH_SIZE : Z := 1.

(** [{column.name: None for column in table.__table__.columns}] *)
Definition empty_row (table : Table) : gmap string Any :=
  list_to_map ((λ c, (c, PyNone)) <$> columns table).

(** The body of [for key in db_obj], on the pair [(db_obj, event_data)]. *)
Definition move_value (acc : gmap string Any * gmap string Any) (key : string)
    : gmap string Any * gmap string Any :=
  match acc.2 !! key with
  | Some val => (<[key := val]> acc.1, delete key acc.2)
  | None => acc
  end.

(** The loop over the keys of [db_obj], which are the column names.  The
    result is [(db_obj, event_data)] after the loop: the dict the caller
    passed has lost the keys that are columns. *)
Definition fill_row (event_data : gmap string Any) (table : Table)
    : gmap string Any * gmap string Any :=
  foldl move_value (empty_row table, event_data) (columns table).

(** What the session [db] does with [execute] and [commit].  Either call can
    raise: the driver refuses a value (an integer that does not fit the
    column, say), a constraint fails, the database is locked.  Which
    exception it is the code never looks at, so the model has one,
    [SessionError], for all of them.  Whether a call raises may depend on
    everything the session has received before: [accepts calls call] tells
    whether [call], made after [calls], returns. *)
Definition Session : Type := list db_call → db_call → bool.

Section session.
Variable accepts : Session.

(** A call on the session: it is received, and then returns or raises. *)
Definition session_call (call : db_call) : M Store unit := λ s,
  (set_db (λ calls, calls ++ [call]) s,
   if accepts (db s) call then Returned tt else Raised SessionError).

(** The row is appended to the buffer before [db.execute], and the buffer is
    cleared after [db.commit] only: when one of the two raises, the exception
    leaves the function with the row still in the buffer. *)
Definition _insert (event_data : gmap string Any) (table : Table)
    (buffer : option buffer) : M Store (option Result) :=
  let '(db_obj, event_data) := fill_row event_data table in
  (* assert not event_data, event_data *)
  if negb (bool_decide (size event_data = 0%nat)) then raise AssertionError
  else
    _ ← match buffer with
        | Some b => modify (λ s, set_buffer b (buffers s b ++ [db_obj]) s)
        | None => mret tt
        end;
    s ← get;
    let contents := (λ b, buffers s b) <$> buffer in
    if match contents with
       | None => true
       | Some rows => bool_decide (BATCH_SIZE ≤ Z.of_nat (length rows))
       end
    then
      (* to_insert = buffer or [db_obj] *)
      let to_insert := match contents with
                       | Some (row :: rows) => row :: rows
                       | _ => [db_obj]
                       end in
      _ ← session_call (Execute table to_insert);
      _ ← session_call Commit;
      _ ← match buffer, contents with
          | Some b, Some (_ :: _) => modify (set_buffer b [])
          | _, _ => mret tt
          end;
      mret (Some CursorResult)
    else mret None.

(** The mapped classes come from [openadapt.models]; the functions below
    take their tables as parameters. *)
Section inserts.
Variables ActionEvent_table Screenshot_table WindowEvent_table : Table.
Variables PerformanceStat_table MemoryStat_table : Table.

(** [{**event_data, "timestamp": ..., "recording_id": ...,
    "recording_timestamp": ...}] *)
Definition with_recording (recording : Recording) (event_timestamp : Any)
    (event_data : gmap string Any) : gmap string Any :=
  <["recording_timestamp" := timestamp recording]>
    (<["recording_id" := PyInt (id recording)]>
       (<["timestamp" := event_timestamp]> event_data)).

Definition insert_action_event (recording : Recording) (event_timestamp : Any)
    (event_data : gmap string Any) : M Store unit :=
  _ ← _insert (with_recording recording event_timestamp event_data)
              ActionEvent_table (Some action_events);
  mret tt.

Definition insert_screenshot (recording : Recording) (event_timestamp : Any)
    (event_data : gmap string Any) : M Store unit :=
  _ ← _insert (with_recording recording event_timestamp event_data)
              Screenshot_table (Some screenshots);
  mret tt.

Definition insert_window_event (recording : Recording) (event_timestamp : Any)
    (event_data : gmap string Any) : M Store unit :=
  _ ← _insert (with_recording recording event_timestamp event_data)
              WindowEvent_table (Some window_events);
  mret tt.

Definition insert_perf_stat (recording : Recording) (event_type : string)
    (start_time end_time : Any) : M Store unit :=
  let event_perf_stat : gmap string Any :=
    <["end_time" := end_time]>
      (<["start_time" := start_time]>
         (<["event_type" := PyStr event_type]>
            (<["recording_id" := PyInt (id recording)]>
               (<["recording_timestamp" := timestamp recording]> ∅)))) in
  _ ← _insert event_perf_stat PerformanceStat_table (Some performance_stats);
  mret tt.

Definition insert_memory_stat (recording : Recording) (memory_usage_bytes : Z)
    (timestamp_ : Any) : M Store unit :=
  let memory_stat : gmap string Any :=
    <["timestamp" := timestamp_]>
      (<["memory_usage_bytes" := PyInt memory_usage_bytes]>
         (<["recording_id" := PyInt (id recording)]>
            (<["recording_timestamp" := timestamp recording]> ∅))) in
  _ ← _insert memory_stat MemoryStat_table (Some memory_stats);
  mret tt.

(** A call of one of the five functions, with its arguments. *)
Inductive insert_call : Type :=
| CallActionEvent (recording : Recording) (event_timestamp : Any)
    (event_data : gmap string Any)
| CallScreenshot (recording : Recording) (event_timestamp : Any)
    (event_data : gmap string Any)
| CallWindowEvent (recording : Recording) (event_timestamp : Any)
    (event_data : gmap string Any)
| CallPerfStat (recording : Recording) (event_type : string)
    (start_time end_time : Any)
| CallMemoryStat (recording : Recording) (memory_usage_bytes : Z)
    (timestamp_ : Any).

Definition run_call (c : insert_call) : M Store unit :=
  match c with
  | CallActionEvent r t d => insert_action_event r t d
  | CallScreenshot r t d => insert_screenshot r t d
  | CallWindowEvent r t d => insert_window_event r t d
  | CallPerfStat r ty t0 t1 => insert_perf_stat r ty t0 t1
  | CallMemoryStat r m t => insert_memory_stat r m t
  end.

(** A caller that makes the calls one after the other and goes on after a
    call that raised (the exception is caught and dropped). *)
Definition run_calls (cs : list insert_call) (s : Store) : Store :=
  foldl (λ s c, (run_call c s).1) s cs.
End inserts.
End session.

(** [db.query(Recording).filter_by(id=recording_id).first()] *)
Definition get_recording_by_id (recording_id : Z) : M Store (option Recording) := λ s,
  (set_db (λ calls, calls ++ [QueryRecordingById recording_id]) s,
   Returned (List.find (λ r, bool_decide (id r = recording_id)) (recordings s))).

(** ** [filter_stop_sequences] *)

(** The attributes of [ActionEvent] that the filter reads.  The two key
    attributes are [None] when the event carries no such key. *)
Record ActionEvent : Type := {
  name : string;
  canonical_key_char : option string;
  canonical_key_name : option string;
}.

(** [attr == s], where [attr] may be [None]. *)
Definition py_eq (attr : option string) (s : string) : bool :=
  bool_decide (attr = Some s).

(** [attr in sequence] *)
Definition py_in (attr : option string) (sequence : list string) : bool :=
  existsb (py_eq attr) sequence.

(** The two conditions of the inner loop.  [expected] is
    [config.STOP_SEQUENCES[i][stop_sequence_indices[i]]]. *)
Definition press_matches (e : ActionEvent) (expected : string) : bool :=
  (py_eq (canonical_key_char e) expected
   || py_eq (canonical_key_name e) expected)
  && bool_decide (name e = "press").

Definition release_in_sequence (e : ActionEvent) (sequence : list string) : bool :=
  bool_decide (name e = "release")
  && (py_in (canonical_key_char e) sequence
      || py_in (canonical_key_name e) sequence).

(** One iteration of the inner loop on event [e], with
    [idx = stop_sequence_indices[i]]: [Next idx'] stands for an iteration
    that adds one to [num_to_remove] and leaves the index at [idx'].  The
    first comparison evaluates [sequence[idx]] before anything else, so an
    index out of range raises whatever the event is. *)
Inductive step : Type :=
| Next (idx : Z)
| Break
| StepRaise (x : exn).

Definition scan_step (sequence : list string) (e : ActionEvent) (idx : Z) : step :=
  match py_index sequence idx with
  | None => StepRaise IndexError
  | Some expected =>
      if press_matches e expected then Next (idx - 1)
      else if release_in_sequence e sequence then Next idx
      else Break
  end.

(** The inner loop, [for j in range(len(action_events) - 1, -1, -1)]: it
    visits [action_events[j]] from the last event to the first, which is the
    list [backwards = rev action_events] from its head.  The result is the
    pair [(stop_sequence_indices[i], num_to_remove)] when the loop is left. *)
Fixpoint scan (sequence : list string) (backwards : list ActionEvent)
    (idx : Z) (num_to_remove : nat) : outcome (Z * nat) :=
  match backwards with
  | [] => Returned (idx, num_to_remove)
  | e :: earlier =>
      match scan_step sequence e idx with
      | Next idx' => scan sequence earlier idx' (S num_to_remove)
      | Break => Returned (idx, num_to_remove)
      | StepRaise x => Raised x
      end
  end.

(** The values [stop_sequence_indices[i]] takes during the inner loop, the
    initial one first. *)
Fixpoint scan_indices (sequence : list string) (backwards : list ActionEvent)
    (idx : Z) : list Z :=
  idx ::
  match backwards with
  | [] => []
  | e :: earlier =>
      match scan_step sequence e idx with
      | Next idx' => scan_indices sequence earlier idx'
      | _ => []
      end
  end.

(** The inner loop for one candidate on its own: index from
    [len(sequence) - 1], counter from [0]. *)
Definition scan_candidate (sequence : list string)
    (action_events : list ActionEvent) : outcome (Z * nat) :=
  scan sequence (rev action_events) (Z.of_nat (length sequence) - 1) 0.

(** The outer loop, [for i in range(0, len(config.STOP_SEQUENCES))], from
    index [i] on; [remaining] is [config.STOP_SEQUENCES[i:]].  The slot
    [stop_sequence_indices[i]] is read and written in iteration [i] only, so
    it is the local [idx] of that iteration, starting from
    [len(sequence) - 1].  [num_to_remove] is carried from one iteration to the
    next, as in the source.  The result is [(sequence_to_remove,
    num_to_remove)]. *)
Fixpoint scan_sequences (remaining : list (list string)) (i : Z)
    (action_events : list ActionEvent) (num_to_remove : nat)
    : outcome (Z * nat) :=
  match remaining with
  | [] => Returned (-1, num_to_remove)
  | sequence :: remaining' =>
      match scan sequence (rev action_events)
                 (Z.of_nat (length sequence) - 1) num_to_remove with
      | Raised x => Raised x
      | Returned (idx, num') =>
          if bool_decide (idx = -1) then Returned (i, num')
          else scan_sequences remaining' (i + 1) action_events num'
      end
  end.

(** The hard-coded check on the last two events. *)
Definition ctrl_c_tail (action_events : list ActionEvent) : bool :=
  bool_decide (2 ≤ Z.of_nat (length action_events))
  && match py_index action_events (-1), py_index action_events (-2) with
     | Some last_event, Some second_last =>
         py_eq (canonical_key_char last_event) "c"
         && py_eq (canonical_key_name second_last) "ctrl"
     | _, _ => false
     end.

Definition filter_stop_sequences (STOP_SEQUENCES : list (list string))
    : M (list ActionEvent) unit :=
  action_events ← get;
  if ctrl_c_tail action_events then
    _ ← pop; _ ← pop; mret tt
  else
    '(sequence_to_remove, num_to_remove) ←
      lift (scan_sequences STOP_SEQUENCES 0 action_events 0);
    if bool_decide (sequence_to_remove ≠ -1) then pop_n num_to_remove
    else mret tt.

(** Key events, for the examples. *)
Definition press_char (c : string) : ActionEvent :=
  {| name := "press"; canonical_key_char := Some c; canonical_key_name := None |}.
Definition release_char (c : string) : ActionEvent :=
  {| name := "release"; canonical_key_char := Some c; canonical_key_name := None |}.
Definition press_key (k : string) : ActionEvent :=
  {| name := "press"; canonical_key_char := None; canonical_key_name := Some k |}.
Definition release_key (k : string) : ActionEvent :=
  {| name := "release"; canonical_key_char := None; canonical_key_name := Some k |}.

(** The two conditions as propositions: a press of the expected element,
    and a release of some element of the sequence. *)
Definition key_is (e : ActionEvent) (s : string) : Prop :=
  canonical_key_char e = Some s ∨ canonical_key_name e = Some s.

Definition press_at (e : ActionEvent) (expected : string) : Prop :=
  name e = "press" ∧ key_is e expected.

Definition release_of (e : ActionEvent) (sequence : list string) : Prop :=
  name e = "release" ∧ ∃ s, s ∈ sequence ∧ key_is e s.

(** A candidate completes when its scan is left with the index at [-1], the
    test the source makes after the inner loop. *)
Definition completes (sequence : list string) (action_events : list ActionEvent) : Prop :=
  ∃ n, scan_candidate sequence action_events = Returned (-1, n).

Definition falls_short (sequence : list string) (action_events : list ActionEvent) : Prop :=
  ∃ idx n, scan_candidate sequence action_events = Returned (idx, n) ∧ idx ≠ -1.

(** ** [get_action_events] *)

(** [_get(ActionEvent, recording.id)] is a query: [stored recording_id] is
    the list it returns, the action events of that recording in the order of
    their timestamps.  The list is new with every call; [filter_stop_sequences]
    trims it in place and it is returned as it was left.  [recording] is
    [None] when the caller has no recording: [assert recording] fails. *)
Definition get_action_events (STOP_SEQUENCES : list (list string))
    (stored : Z → list ActionEvent) (recording : option Recording)
    : outcome (list ActionEvent) :=
  match recording with
  | None => Raised AssertionError
  | Some recording =>
      let action_events := stored (id recording) in
      let after := filter_stop_sequences STOP_SEQUENCES action_events in
      match after.2 with
      | Returned _ => Returned after.1
      | Raised x => Raised x
      end
  end.

(** The events of a list that are presses. *)
Definition presses (events : list ActionEvent) : list ActionEvent :=
  filter (λ e, name e = "press") events.

(** An event the scan of [sequence] can count: a press or a release whose
    key char or key name is an element of the sequence. *)
Definition key_event_of (sequence : list string) (e : ActionEvent) : Prop :=
  (name e = "press" ∨ name e = "release") ∧ ∃ s, s ∈ sequence ∧ key_is e s.

(** ** [post_process_events] *)

(** [{key: value for ... in items}]: a later item with the same key
    replaces an earlier one. *)
Definition dict_of `{Countable K} {V} (items : list (K * V)) : gmap K V :=
  foldl (λ d item, <[item.1 := item.2]> d) ∅ items.

(** The attributes of [Screenshot], [WindowEvent] and [ActionEvent] rows
    that [post_process_events] reads or writes.  [Timestamp] is the type of
    the timestamp values, compared as Python compares the keys of a dict. *)
Module Screenshot.
Record t (Timestamp : Type) : Type := {
  id : Z;
  timestamp : Timestamp;
}.
Arguments id {Timestamp} _.
Arguments timestamp {Timestamp} _.
End Screenshot.

Module WindowEvent.
Record t (Timestamp : Type) : Type := {
  id : Z;
  timestamp : Timestamp;
}.
Arguments id {Timestamp} _.
Arguments timestamp {Timestamp} _.
End WindowEvent.

Record ActionEventLinks (Timestamp : Type) : Type := {
  screenshot_timestamp : Timestamp;
  window_event_timestamp : Timestamp;
  screenshot_id : option Z;
  window_event_id : option Z;
}.
Arguments screenshot_timestamp {Timestamp} _.
Arguments window_event_timestamp {Timestamp} _.
Arguments screenshot_id {Timestamp} _.
Arguments window_event_id {Timestamp} _.

(** The three lists are what [_get] returns for the recording; the result
    is the list of action events as [db.commit()] saves them. *)
Definition post_process_events `{Countable Timestamp}
    (screenshots : list (Screenshot.t Timestamp))
    (action_events : list (ActionEventLinks Timestamp))
    (window_events : list (WindowEvent.t Timestamp))
    : list (ActionEventLinks Timestamp) :=
  let screenshot_timestamp_to_id_map :=
    dict_of ((λ screenshot, (Screenshot.timestamp screenshot,
                             Screenshot.id screenshot)) <$> screenshots) in
  let window_event_timestamp_to_id_map :=
    dict_of ((λ window_event, (WindowEvent.timestamp window_event,
                               WindowEvent.id window_event)) <$> window_events) in
  (λ action_event,
     {| screenshot_timestamp := screenshot_timestamp action_event;
        window_event_timestamp := window_event_timestamp action_event;
        screenshot_id :=
          screenshot_timestamp_to_id_map !! screenshot_timestamp action_event;
        window_event_id :=
          window_event_timestamp_to_id_map
            !! window_event_timestamp action_event |})
  <$> action_events.

(** ** [save_screenshot_diff] and [get_screenshots] *)

(** The attributes of a [Screenshot] that the two functions read or write.
    [prev] refers to a screenshot of the same list, by its position in the
    list; the two diffs are [None] or bytes. *)
Record ScreenshotDiff : Type := {
  prev : option nat;
  png_diff_data : option (list Byte.byte);
  png_diff_mask_data : option (list Byte.byte);
}.

Definition set_prev (p : nat) (screenshot : ScreenshotDiff) : ScreenshotDiff :=
  {| prev := Some p; png_diff_data := png_diff_data screenshot;
     png_diff_mask_data := png_diff_mask_data screenshot |}.

Definition set_png_diff_data (data : list Byte.byte)
    (screenshot : ScreenshotDiff) : ScreenshotDiff :=
  {| prev := prev screenshot; png_diff_data := Some data;
     png_diff_mask_data := png_diff_mask_data screenshot |}.

Definition set_png_diff_mask_data (data : list Byte.byte)
    (screenshot : ScreenshotDiff) : ScreenshotDiff :=
  {| prev := prev screenshot; png_diff_data := png_diff_data screenshot;
     png_diff_mask_data := Some data |}.

(** The truth value of [None] and of bytes: [not x] holds for [None] and
    for [b""]. *)
Definition truthy (x : option (list Byte.byte)) : bool :=
  match x with
  | Some (_ :: _) => true
  | _ => false
  end.

(** [screenshot.convert_png_to_binary(screenshot.diff)] and the same for
    [diff_mask] come from [openadapt.models]: they are parameters, given the
    screenshots in their present state and the position of the one asked. *)
Section screenshots.
Variable diff_binary : list ScreenshotDiff → nat → list Byte.byte.
Variable mask_binary : list ScreenshotDiff → nat → list Byte.byte.

(** The loop [for screenshot in screenshots]: [processed] are the
    screenshots behind the loop, [todo] the ones before it.  The result is
    the list after the loop and [data_updated]. *)
Fixpoint save_loop (processed todo : list ScreenshotDiff) (data_updated : bool)
    : list ScreenshotDiff * bool :=
  match todo with
  | [] => (processed, data_updated)
  | screenshot :: rest =>
      match prev screenshot with
      | None => save_loop (processed ++ [screenshot]) rest data_updated
      | Some _ =>
          let i := length processed in
          let '(screenshot, data_updated) :=
            if truthy (png_diff_data screenshot) then (screenshot, data_updated)
            else (set_png_diff_data
                    (diff_binary (processed ++ screenshot :: rest) i) screenshot,
                  true) in
          let '(screenshot, data_updated) :=
            if truthy (png_diff_mask_data screenshot)
            then (screenshot, data_updated)
            else (set_png_diff_mask_data
                    (mask_binary (processed ++ screenshot :: rest) i) screenshot,
                  true) in
          save_loop (processed ++ [screenshot]) rest data_updated
      end
  end.

(** The result is the list returned and whether
    [db.bulk_save_objects(screenshots); db.commit()] was run. *)
Definition save_screenshot_diff (screenshots : list ScreenshotDiff)
    : list ScreenshotDiff * bool :=
  save_loop [] screenshots false.

(** [for prev, cur in zip(screenshots, screenshots[1:]): cur.prev = prev],
    then [screenshots[0].prev = screenshots[0]] if there is a screenshot. *)
Definition link_prev (screenshots : list ScreenshotDiff) : list ScreenshotDiff :=
  let n := length screenshots in
  let linked :=
    foldl (λ l pair, alter (set_prev pair.1) pair.2 l) screenshots
      (zip (seq 0 n) (seq 1 (n - 1))) in
  match linked with
  | [] => linked
  | _ :: _ => alter (set_prev 0) 0%nat linked
  end.

(** [stored recording_id] is what [_get(Screenshot, recording.id)]
    returns. *)
Definition get_screenshots (SAVE_SCREENSHOT_DIFF : bool)
    (stored : Z → list ScreenshotDiff) (recording : Recording)
    : list ScreenshotDiff * bool :=
  let screenshots := link_prev (stored (id recording)) in
  if SAVE_SCREENSHOT_DIFF then save_screenshot_diff screenshots
  else (screenshots, false).
End screenshots.

(** What a call of [save_screenshot_diff] may do to one screenshot. *)
Definition diff_filled (before after : ScreenshotDiff) : Prop :=
  prev after = prev before
  ∧ (prev before = None → after = before)
  ∧ (truthy (png_diff_data before) = true →
     png_diff_data after = png_diff_data before)
  ∧ (truthy (png_diff_mask_data before) = true →
     png_diff_mask_data after = png_diff_mask_data before)
  ∧ (prev before ≠ None → is_Some (png_diff_data after)
                           ∧ is_Some (png_diff_mask_data after)).

(** A screenshot for which [save_screenshot_diff] has something to do. *)
Definition lacks_diff (screenshot : ScreenshotDiff) : bool :=
  bool_decide (prev screenshot ≠ None)
  && negb (truthy (png_diff_data screenshot)
           && truthy (png_diff_mask_data screenshot)).

(** ** [copy_recording] *)

(** The mapped objects and [copy_sa_instance] come from [openadapt.models]
    and the session from SQLAlchemy: an object is a value of the parameter
    [Obj], [attr obj name] is its attribute [name] for the id attributes
    (an int or [None]), [related obj name] is the collection behind the
    relationship [name], and [refresh saved obj] is [obj] as [db.refresh]
    leaves it when the session has saved the objects [saved].  The state is
    the list of the objects saved so far, in the order of [db.add].  The
    model follows the calls that return; the [except] branch is taken when
    one of them raises, which no parameter here does. *)
Section copy.
Variable Obj : Type.
Variable attr : Obj → string → option Z.
Variable related : Obj → string → list Obj.
Variable copy_sa_instance : Obj → list (string * option Z) → Obj.
Variable refresh : list Obj → Obj → Obj.

(** [db.add(obj); db.commit(); db.refresh(obj)] *)
Definition add_commit_refresh (obj : Obj) : M (list Obj) Obj := λ saved,
  (saved ++ [obj], Returned (refresh (saved ++ [obj]) obj)).

(** [db.add(obj); db.commit()] *)
Definition add_commit (obj : Obj) : M (list Obj) unit := λ saved,
  (saved ++ [obj], Returned tt).

(** [mapping.get(key)] *)
Definition dict_get (mapping : gmap (option Z) (option Z)) (key : option Z)
    : option Z :=
  default None (mapping !! key).

(** The loop over [recording.screenshots], and the one over
    [recording.window_events], which has the same body: each child is
    copied for the new recording, saved, and its old id is mapped to the
    new one.  The result is the map after the loop. *)
Fixpoint copy_children (children : list Obj) (new_recording : Obj)
    (old_to_new_id_map : gmap (option Z) (option Z))
    : M (list Obj) (gmap (option Z) (option Z)) :=
  match children with
  | [] => mret old_to_new_id_map
  | child :: rest =>
      new_child ← add_commit_refresh
                    (copy_sa_instance child
                       [("recording_id", attr new_recording "id")]);
      copy_children rest new_recording
        (<[attr child "id" := attr new_child "id"]> old_to_new_id_map)
  end.

(** The loop over [recording.action_events] returns from its first
    iteration; without an action event the function ends without a
    [return], that is with [None]. *)
Definition copy_recording (recording : Obj) : M (list Obj) (option Obj) :=
  new_recording ← add_commit_refresh
                    (copy_sa_instance recording
                       [("original_recording_id", attr recording "id")]);
  old_to_new_screenshot_id_map ←
    copy_children (related recording "screenshots") new_recording ∅;
  old_to_new_window_event_id_map ←
    copy_children (related recording "window_events") new_recording ∅;
  match related recording "action_events" with
  | [] => mret None
  | action_event :: _ =>
      let new_action_event :=
        copy_sa_instance action_event
          [("recording_id", attr new_recording "id");
           ("screenshot_id",
            dict_get old_to_new_screenshot_id_map
              (attr action_event "screenshot_id"));
           ("window_event_id",
            dict_get old_to_new_window_event_id_map
              (attr action_event "window_event_id"))] in
      _ ← add_commit new_action_event;
      mret (Some new_recording)
  end.
End copy.

(** ** [new_session] and [scrub_recording] *)

(** [db.close(); db = Session()]: the module variable now names a session
    that has received no call. *)
Definition new_session : M Store unit :=
  modify (set_db (λ _, [])).

(** [obj.task_description = value] on the object the session handed out for
    [recording_id] (the first one with that id). *)
Fixpoint assign_task_description (recording_id : Z) (value : Any)
    (rows : list Recording) : list Recording :=
  match rows with
  | [] => []
  | r :: rows' =>
      if bool_decide (id r = recording_id)
      then {| id := id r; timestamp := timestamp r; task_description := value |} :: rows'
      else r :: assign_task_description recording_id value rows'
  end.

(** What reaches the parameter [recording_id]: the annotation says an int,
    the REST route passes a [Recording] object. *)
Inductive scrub_argument : Type :=
| IdArgument (recording_id : Z)
| RecordingArgument (recording : Recording).

(** [config.SCRUB_ENABLED], the scrubbing provider, [openadapt.events] and
    [openadapt.utils] are outside the sources at hand: they are parameters.
    [str_argument] and [str_dict] are [str()] as the f-string and [print]
    apply it. *)
Section scrub.
Variable SCRUB_ENABLED : bool.
Variable EventRow : Type.
Variable scrub_text : Any → Any.
Variable get_events : Recording → list EventRow.
Variable rows2dicts : list EventRow → list (gmap string Any).
Variable scrub_list_dicts : list (gmap string Any) → list (gmap string Any).
Variable str_argument : scrub_argument → string.
Variable str_dict : gmap string Any → string.

Definition scrub_recording (recording_id : scrub_argument) : M Store unit :=
  if negb SCRUB_ENABLED then
    modify (log_error "Scrubbing is not enabled.")
  else
    recording ← get_recording_by_id 2;
    match recording with
    | None =>
        modify (log_error ("Recording with id "
                           +:+ str_argument recording_id +:+ " not found."))
    | Some recording =>
        let new_recording := recording in
        let scrubbed := scrub_text (task_description new_recording) in
        _ ← modify (set_recordings
                      (assign_task_description (id new_recording) scrubbed));
        (* [recording] and [new_recording] are one object *)
        let recording :=
          {| id := id recording; timestamp := timestamp recording;
             task_description := scrubbed |} in
        let action_events := get_events recording in
        let event_dicts := rows2dicts action_events in
        let event_dicts := scrub_list_dicts event_dicts in
        match event_dicts with
        | first_dict :: _ => modify (print (str_dict first_dict))
        | [] => raise IndexError
        end
    end.
End scrub.

End crud.

(** ** The recordings REST facade *)

Module RecordingsAPI.
Section routes.
Variable SCRUB_ENABLED : bool.
Variable EventRow : Type.
Variable scrub_text : crud.Any → crud.Any.
Variable get_events : crud.Recording → list EventRow.
Variable rows2dicts : list EventRow → list (gmap string crud.Any).
Variable scrub_list_dicts :
  list (gmap string crud.Any) → list (gmap string crud.Any).
Variable str_argument : crud.scrub_argument → string.
Variable str_dict : gmap string crud.Any → string.

(** The handler of the route [/scrub/{recording_id}]. *)
Definition scrub_recording (recording_id : Z) : M crud.Store (gmap string string) :=
  _ ← crud.new_session;
  recording ← crud.get_recording_by_id recording_id;
  match recording with
  | None => mret {["message" := "Recording not found"]}
  | Some recording =>
      _ ← crud.scrub_recording SCRUB_ENABLED EventRow scrub_text get_events
            rows2dicts scrub_list_dicts str_argument str_dict
            (crud.RecordingArgument recording);
      mret {["message" := "abc"]}
  end.
End routes.
End RecordingsAPI.

(** ** Schema migrations *)

(** The part of Alembic's [op.batch_alter_table] the two scripts use, on a
    schema that maps a table name to its columns in order. *)
Module op.

Inductive sa_type : Type :=
| Integer
| Float
| String
| Boolean
| LargeBinary
| JSON.

Record Column : Type := {
  column_name : string;
  column_type : sa_type;
  nullable : bool;
}.

#[global] Instance sa_type_eq_dec : EqDecision sa_type.
Proof. solve_decision. Defined.
#[global] Instance Column_eq_dec : EqDecision Column.
Proof. solve_decision. Defined.

(** [batch_op.add_column(column)] inside [with op.batch_alter_table(table)]:
    the column is added after the existing ones.  On SQLite the column is
    added by an [ALTER TABLE] statement, which the database refuses for an
    unknown table and for a column name already in use. *)
Definition add_column (table : string) (column : Column)
    : M (gmap string (list Column)) unit := λ schema,
  match schema !! table with
  | None => (schema, Raised OperationalError)
  | Some cols =>
      if bool_decide (column_name column ∈ column_name <$> cols)
      then (schema, Raised OperationalError)
      else (<[table := cols ++ [column]]> schema, Returned tt)
  end.

(** [batch_op.drop_column(name)]: the table is read from the database and
    rebuilt without the column; an unknown table fails when it is read, an
    unknown column when it is looked up among the columns read. *)
Definition drop_column (table : string) (column : string)
    : M (gmap string (list Column)) unit := λ schema,
  match schema !! table with
  | None => (schema, Raised NoSuchTableError)
  | Some cols =>
      if bool_decide (column ∈ column_name <$> cols)
      then (<[table := filter (λ c, column_name c ≠ column) cols]> schema,
            Returned tt)
      else (schema, Raised KeyError)
  end.

End op.

Module rev_57d78d23087a.
Definition revision : string := "57d78d23087a".
Definition down_revision : string := "20f9c2afb42c".

Definition upgrade : M (gmap string (list op.Column)) unit :=
  op.add_column "window_event"
    {| op.column_name := "state"; op.column_type := op.JSON;
       op.nullable := true |}.

Definition downgrade : M (gmap string (list op.Column)) unit :=
  op.drop_column "window_event" "state".
End rev_57d78d23087a.

Module rev_8495f5471e23.
Definition revision : string := "8495f5471e23".
Definition down_revision : string := "30a5ba9d6453".

Definition upgrade : M (gmap string (list op.Column)) unit :=
  op.add_column "recording"
    {| op.column_name := "config"; op.column_type := op.JSON;
       op.nullable := true |}.

Definition downgrade : M (gmap string (list op.Column)) unit :=
  op.drop_column "recording" "config".
End rev_8495f5471e23.

Import crud.

(** ** Auxiliary definitions for the statements below *)

(** The result of a scan when its counter starts [k] higher. *)
Definition add_count (k : nat) (o : outcome (Z * nat)) : outcome (Z * nat) :=
  match o with
  | Returned (idx, n) => Returned (idx, (n + k)%nat)
  | Raised x => Raised x
  end.

(** All five module-level buffers are empty. *)
Definition buffers_empty (s : Store) : Prop := ∀ b, buffers s b = [].

(** A schema at the revisions the two scripts start from. *)
Definition example_schema : gmap string (list op.Column) :=
  <["window_event" :=
      [{| op.column_name := "id"; op.column_type := op.Integer; op.nullable := false |};
       {| op.column_name := "title"; op.column_type := op.String; op.nullable := true |}]]>
    (<["recording" :=
         [{| op.column_name := "id"; op.column_type := op.Integer; op.nullable := false |};
          {| op.column_name := "timestamp"; op.column_type := op.Float; op.nullable := true |}]]>
       ∅).

(** A call that gets as far as [db.execute(sa.insert(table), to_insert)] with
    the session at [calls]: whether both [execute] and [commit] return, and
    the calls the session receives (no [commit] after an [execute] that
    raised). *)
Definition committed (accepts : Session) (calls : list db_call) (table : Table)
    (to_insert : list (gmap string Any)) : bool :=
  accepts calls (Execute table to_insert)
  && accepts (calls ++ [Execute table to_insert]) Commit.

Definition received (accepts : Session) (calls : list db_call) (table : Table)
    (to_insert : list (gmap string Any)) : list db_call :=
  Execute table to_insert
  :: if accepts calls (Execute table to_insert) then [Commit] else [].

(** Every call of [calls], received after [before], returned. *)
Fixpoint accepted (accepts : Session) (before calls : list db_call) : bool :=
  match calls with
  | [] => true
  | call :: later =>
      accepts before call && accepted accepts (before ++ [call]) later
  end.

(** A session over a database that stores integers in 64 bits, as SQLite
    does: an [execute] with a row that holds a larger integer raises. *)
Definition fits_int64 (value : Any) : bool :=
  match value with
  | PyInt n => (- 2 ^ 63 <=? n) && (n <? 2 ^ 63)
  | _ => true
  end.

Definition int64_session : Session := λ _ call,
  match call with
  | Execute _ to_insert =>
      forallb (λ row, forallb (λ item, fits_int64 item.2) (map_to_list row))
              to_insert
  | _ => true
  end.

Definition example_recording : Recording :=
  {| id := 3; timestamp := PyInt 100; task_description := PyNone |}.

Definition MemoryStat_example : Table :=
  {| tablename := "memory_stat";
     columns := ["id"; "recording_timestamp"; "recording_id";
                 "memory_usage_bytes"; "timestamp"] |}.

(** The call [call] in state [s] hands the session the pending rows of buffer
    [b] followed by one row; that row carries the recording's id and
    timestamp and the event timestamp under their three keys and the values
    of [event_data] under every other key.  When the session accepts the
    [execute] and the [commit], the call returns and leaves [b] empty;
    otherwise it raises and leaves the row in [b]. *)
Definition inserts_event_row (accepts : Session) (call : M Store unit)
    (table : Table) (b : buffer) (recording : Recording) (event_timestamp : Any)
    (event_data : gmap string Any) (s : Store) : Prop :=
  ∃ row,
    (call s).2 = (if committed accepts (db s) table (buffers s b ++ [row])
                  then Returned tt else Raised SessionError)
    ∧ db (call s).1 = db s ++ received accepts (db s) table (buffers s b ++ [row])
    ∧ buffers (call s).1 b
      = (if committed accepts (db s) table (buffers s b ++ [row])
         then [] else buffers s b ++ [row])
    ∧ row !! "timestamp" = Some event_timestamp
    ∧ row !! "recording_id" = Some (PyInt (id recording))
    ∧ row !! "recording_timestamp" = Some (timestamp recording)
    ∧ ∀ key val,
        key ≠ "timestamp" → key ≠ "recording_id" → key ≠ "recording_timestamp" →
        event_data !! key = Some val → row !! key = Some val.

(** The calls a session has received when every row was inserted by an
    [execute] of its own, directly followed by a [commit]. *)
Definition one_row_per_commit (calls : list db_call) : Prop :=
  ∃ rows : list (Table * gmap string Any),
    calls = rows ≫= λ row, [Execute row.1 [row.2]; Commit].

(** * Properties *)

(** ** Lists, indices and [pop] *)

Lemma py_index_range {A} (l : list A) (i : Z) (x : A) :
  py_index l i = Some x → - Z.of_nat (length l) ≤ i < Z.of_nat (length l).
Proof.
  unfold py_index. intros H.
  repeat case_bool_decide; try discriminate;
    apply lookup_lt_Some in H; lia.
Qed.

Lemma py_index_nonneg {A} (l : list A) (i : Z) :
  0 ≤ i < Z.of_nat (length l) → is_Some (py_index l i).
Proof.
  intros [H0 H1]. unfold py_index. rewrite bool_decide_eq_true_2 by done.
  apply lookup_lt_is_Some. lia.
Qed.

Lemma pop_snoc {A} (l : list A) (x : A) : pop (l ++ [x]) = (l, Returned x).
Proof. unfold pop. by rewrite last_snoc, removelast_last. Qed.

Lemma pop_n_app {A} (suffix l : list A) :
  pop_n (length suffix) (l ++ suffix) = (l, Returned tt).
Proof.
  revert l. induction suffix as [|x suffix IH] using rev_ind; intros l.
  - by rewrite app_nil_r.
  - rewrite length_app, Nat.add_comm. simpl.
    unfold mbind, M_bind. rewrite app_assoc, pop_snoc. apply IH.
Qed.

Lemma pop_n_take {A} (n : nat) (l : list A) :
  (n ≤ length l)%nat →
  pop_n n l = (take (length l - n) l, Returned tt).
Proof.
  intros Hn. rewrite <- (take_drop (length l - n) l) at 1.
  replace n with (length (drop (length l - n) l)) at 1
    by (rewrite length_drop; lia).
  apply pop_n_app.
Qed.

(** ** The inner loop *)

(** The counter the scan starts from is only added to. *)
Lemma scan_from_count seq backwards idx k :
  scan seq backwards idx k = add_count k (scan seq backwards idx 0).
Proof.
  revert idx k. induction backwards as [|e earlier IH]; intros idx k; simpl.
  - done.
  - destruct (scan_step seq e idx) as [idx'| |x]; simpl; try done.
    rewrite (IH idx' (S k)), (IH idx' 1%nat).
    destruct (scan seq earlier idx' 0) as [[i n]|x]; simpl; [|done].
    f_equal. f_equal. lia.
Qed.

Lemma scan_step_Next seq e idx idx' :
  scan_step seq e idx = Next idx' →
  is_Some (py_index seq idx) ∧ (idx' = idx ∨ idx' = idx - 1).
Proof.
  unfold scan_step. destruct (py_index seq idx) as [expected|]; [|done].
  destruct (press_matches e expected); [intros [= <-]; eauto|].
  destruct (release_in_sequence e seq); [intros [= <-]; eauto|done].
Qed.

Lemma scan_indices_head seq backwards idx :
  idx ∈ scan_indices seq backwards idx.
Proof. destruct backwards; simpl; apply list_elem_of_here. Qed.

(** While the index stays off [-1] it stays a position of the sequence, so
    the scan neither raises nor ends at [-1]. *)
Lemma scan_never_minus_one seq backwards idx n :
  0 ≤ idx < Z.of_nat (length seq) →
  -1 ∉ scan_indices seq backwards idx →
  ∃ idx' n', scan seq backwards idx n = Returned (idx', n')
             ∧ 0 ≤ idx' < Z.of_nat (length seq).
Proof.
  revert idx n. induction backwards as [|e earlier IH]; intros idx n Hidx Hnot.
  - simpl. eauto.
  - simpl in *. destruct (scan_step seq e idx) as [idx'| |x] eqn:Hstep.
    + apply scan_step_Next in Hstep as [_ Hidx'].
      apply not_elem_of_cons in Hnot as [_ Hnot].
      assert (idx' ≠ -1) as Hne.
      { intros ->. apply Hnot, scan_indices_head. }
      apply IH; [lia|done].
    + eauto.
    + unfold scan_step in Hstep.
      destruct (py_index_nonneg seq idx Hidx) as [expected Hexp].
      rewrite Hexp in Hstep.
      destruct (press_matches e expected); [done|].
      by destruct (release_in_sequence e seq).
Qed.

Lemma scan_sequences_no_completion seqs i events n :
  Forall (λ seq, -1 ∉ scan_indices seq (rev events)
                        (Z.of_nat (length seq) - 1)) seqs →
  ∃ n', scan_sequences seqs i events n = Returned (-1, n').
Proof.
  revert i n. induction seqs as [|seq seqs IH]; intros i n Hall; simpl.
  - eauto.
  - apply Forall_cons in Hall as [Hseq Hall].
    assert (0 ≤ Z.of_nat (length seq) - 1 < Z.of_nat (length seq)) as Hidx.
    { destruct (decide (Z.of_nat (length seq) - 1 = -1)) as [Heq|]; [|lia].
      exfalso. apply Hseq. rewrite Heq. apply scan_indices_head. }
    destruct (scan_never_minus_one seq (rev events) _ n Hidx Hseq)
      as (idx' & n' & -> & Hidx').
    rewrite bool_decide_eq_false_2 by lia. apply IH, Hall.
Qed.

(** C2: when the Ctrl+C check does not fire and no candidate's index reaches
    [-1] during its backward scan, [filter_stop_sequences] returns normally
    and leaves the list of events as it was. *)
Theorem filter_without_completion_keeps_events
    (STOP_SEQUENCES : list (list string)) (events : list ActionEvent) :
  ctrl_c_tail events = false →
  (∀ seq, seq ∈ STOP_SEQUENCES →
     -1 ∉ scan_indices seq (rev events) (Z.of_nat (length seq) - 1)) →
  filter_stop_sequences STOP_SEQUENCES events = (events, Returned tt).
Proof.
  intros Hctrl Hnone. apply Forall_forall in Hnone.
  destruct (scan_sequences_no_completion STOP_SEQUENCES 0 events 0 Hnone)
    as [n' Hscan].
  unfold filter_stop_sequences, mbind, M_bind, get, lift. simpl.
  rewrite Hctrl, Hscan. simpl. done.
Qed.

Lemma filter_without_completion_keeps_events_witness :
  filter_stop_sequences [["a"; "b"]; ["ctrl"; "ctrl"]]
    [press_char "h"; release_char "h"; press_char "b"; release_char "b"]
  = ([press_char "h"; release_char "h"; press_char "b"; release_char "b"],
     Returned tt).
Proof.
  apply filter_without_completion_keeps_events.
  - reflexivity.
  - intros seq Hseq. vm_compute.
    apply list_elem_of_In in Hseq. simpl in Hseq.
    destruct Hseq as [<-|[<-|[]]]; vm_compute; intros H;
      repeat (apply elem_of_cons in H as [H|H]; [discriminate|]);
      by apply elem_of_nil in H.
Defined.

(** ** The outer loop *)

Lemma scan_candidate_from seq events n :
  scan seq (rev events) (Z.of_nat (length seq) - 1) n
  = add_count n (scan_candidate seq events).
Proof. apply scan_from_count. Qed.

(** Candidates that fall short are passed over: the loop goes on with the
    next index and a larger counter. *)
Lemma scan_sequences_skip earlier rest i events n :
  Forall (λ seq, falls_short seq events) earlier →
  ∃ n', (n ≤ n')%nat ∧
    scan_sequences (earlier ++ rest) i events n
    = scan_sequences rest (i + Z.of_nat (length earlier)) events n'.
Proof.
  revert i n. induction earlier as [|seq earlier IH]; intros i n Hall.
  - exists n. split; [lia|]. simpl. f_equal. lia.
  - apply Forall_cons in Hall as [(idx & m & Hscan & Hne) Hall].
    simpl. rewrite scan_candidate_from, Hscan. simpl.
    rewrite bool_decide_eq_false_2 by done.
    destruct (IH (i + 1) (m + n)%nat Hall) as (n' & Hle & ->).
    exists n'. split; [lia|]. f_equal. lia.
Qed.

(** Conversely, the index the outer loop selects is that of a candidate
    that completes, and every candidate before it fell short. *)
Lemma scan_sequences_selected seqs i0 events n0 i n :
  scan_sequences seqs i0 events n0 = Returned (i, n) →
  i ≠ -1 →
  ∃ earlier seq later,
    seqs = earlier ++ seq :: later
    ∧ i = i0 + Z.of_nat (length earlier)
    ∧ Forall (λ seq', falls_short seq' events) earlier
    ∧ completes seq events.
Proof.
  revert i0 n0. induction seqs as [|seq seqs IH]; intros i0 n0 Hscan Hi.
  - simpl in Hscan. injection Hscan as <- _. done.
  - simpl in Hscan. rewrite scan_candidate_from in Hscan.
    destruct (scan_candidate seq events) as [[idx m]|x] eqn:Hcand; [|done].
    simpl in Hscan. case_bool_decide as Hidx.
    + injection Hscan as <- _. subst idx.
      exists [], seq, seqs. repeat split; [simpl; lia|done|by exists m].
    + destruct (IH _ _ Hscan Hi) as (earlier & seq' & later & -> & -> & Hall & Hdone).
      exists (seq :: earlier), seq', later.
      repeat split; [simpl; lia| |done].
      apply Forall_cons. split; [|done]. by exists idx, m.
Qed.

Lemma scan_count_bound seq backwards idx k idx' n :
  scan seq backwards idx k = Returned (idx', n) →
  (k ≤ n ≤ k + length backwards)%nat.
Proof.
  revert idx k. induction backwards as [|e earlier IH]; intros idx k; simpl.
  - intros [= _ <-]. lia.
  - destruct (scan_step seq e idx) as [idx''| |x]; [|intros [= _ <-]; lia|done].
    intros H. apply IH in H. lia.
Qed.

(** When the first candidate is the one that completes, the events popped
    are the ones its scan counted. *)
Lemma first_candidate_pops_its_own_run seq later events n :
  ctrl_c_tail events = false →
  scan_candidate seq events = Returned (-1, n) →
  filter_stop_sequences (seq :: later) events
  = (take (length events - n) events, Returned tt).
Proof.
  intros Hctrl Hscan.
  unfold filter_stop_sequences, mbind, M_bind, get, lift. simpl.
  unfold scan_candidate in Hscan. rewrite Hctrl, Hscan. simpl.
  apply pop_n_take. apply scan_count_bound in Hscan.
  rewrite length_rev in Hscan. lia.
Qed.

(** C1: with [STOP_SEQUENCES = [["a","b"],["x","b"]]] and the events press
    z, press x, press b, the second candidate completes and its own scan
    matches two events, yet [num_to_remove] is 3, because the event counted
    while scanning the first candidate is still in it, and all three events
    are popped. *)
Theorem filter_pops_events_of_earlier_scans :
  scan_candidate ["x"; "b"] [press_char "z"; press_char "x"; press_char "b"]
  = Returned (-1, 2%nat)
  ∧ scan_candidate ["a"; "b"] [press_char "z"; press_char "x"; press_char "b"]
    = Returned (0, 1%nat)
  ∧ scan_sequences [["a"; "b"]; ["x"; "b"]] 0
      [press_char "z"; press_char "x"; press_char "b"] 0
    = Returned (1, 3%nat)
  ∧ filter_stop_sequences [["a"; "b"]; ["x"; "b"]]
      [press_char "z"; press_char "x"; press_char "b"]
    = ([], Returned tt).
Proof. repeat split. Qed.

(** C3: with [STOP_SEQUENCES = [["a","b"],["x","b"],["b"]]] and the events
    press x, press b, two candidates complete: the one at index 1 and the
    one at index 2.  The outer loop stops at index 1 and never scans index
    2, but [num_to_remove] still holds the event counted while scanning
    index 0: three events are to be popped from a list of two, and the call
    raises IndexError with the list emptied.  With press z in front of the
    same events the call returns, and press z, which is part of no
    occurrence, is removed with the other two. *)
Theorem lowest_completing_sequence_pops_too_much :
  scan_candidate ["a"; "b"] [press_char "x"; press_char "b"]
  = Returned (0, 1%nat)
  ∧ scan_candidate ["x"; "b"] [press_char "x"; press_char "b"]
    = Returned (-1, 2%nat)
  ∧ scan_candidate ["b"] [press_char "x"; press_char "b"]
    = Returned (-1, 1%nat)
  ∧ scan_sequences [["a"; "b"]; ["x"; "b"]; ["b"]] 0
      [press_char "x"; press_char "b"] 0
    = Returned (1, 3%nat)
  ∧ filter_stop_sequences [["a"; "b"]; ["x"; "b"]; ["b"]]
      [press_char "x"; press_char "b"]
    = ([], Raised IndexError)
  ∧ scan_candidate ["x"; "b"] [press_char "z"; press_char "x"; press_char "b"]
    = Returned (-1, 2%nat)
  ∧ filter_stop_sequences [["a"; "b"]; ["x"; "b"]; ["b"]]
      [press_char "z"; press_char "x"; press_char "b"]
    = ([], Returned tt).
Proof. repeat split. Qed.

(** ** The two conditions of the inner loop *)

Lemma py_eq_spec attr s : py_eq attr s = true ↔ attr = Some s.
Proof. unfold py_eq. apply bool_decide_eq_true. Qed.

Lemma py_in_spec attr seq : py_in attr seq = true ↔ ∃ s, s ∈ seq ∧ attr = Some s.
Proof.
  unfold py_in. rewrite existsb_exists. split.
  - intros (s & Hin & Heq). exists s.
    by rewrite list_elem_of_In, <- py_eq_spec.
  - intros (s & Hin & Heq). exists s.
    by rewrite <- list_elem_of_In, py_eq_spec.
Qed.

Lemma press_matches_spec e expected :
  press_matches e expected = true ↔ press_at e expected.
Proof.
  unfold press_matches, press_at, key_is.
  rewrite andb_true_iff, orb_true_iff, !py_eq_spec, bool_decide_eq_true.
  tauto.
Qed.

Lemma release_in_sequence_spec e seq :
  release_in_sequence e seq = true ↔ release_of e seq.
Proof.
  unfold release_in_sequence, release_of, key_is.
  rewrite andb_true_iff, orb_true_iff, !py_in_spec, bool_decide_eq_true.
  split.
  - intros [Hname [(s & Hin & Heq)|(s & Hin & Heq)]]; split; eauto.
  - intros [Hname (s & Hin & [Heq|Heq])]; split; eauto.
Qed.

Lemma press_is_not_release e expected seq :
  press_at e expected → ¬ release_of e seq.
Proof. intros [Hp _] [Hr _]. rewrite Hp in Hr. discriminate. Qed.

(** At any index at which the sequence has an element, a release event
    whose key char or key name occurs anywhere in the candidate sequence is
    counted and leaves the index where it is, so the scan goes on behind it
    with one more event to remove; and the iteration leaves the loop by
    [break] exactly for an event that is neither a press of the expected
    element nor such a release.  Nothing keeps the index at such a
    position. *)
Lemma release_is_counted_at_a_position
    (seq : list string) (e : ActionEvent) (idx : Z) (expected : string)
    (earlier : list ActionEvent) (n : nat) :
  py_index seq idx = Some expected →
  (release_of e seq →
     scan_step seq e idx = Next idx
     ∧ scan seq (e :: earlier) idx n = scan seq earlier idx (S n))
  ∧ (scan_step seq e idx = Break ↔ ¬ press_at e expected ∧ ¬ release_of e seq).
Proof.
  intros Hexp. unfold scan. fold scan. unfold scan_step. rewrite Hexp.
  destruct (press_matches e expected) eqn:Hpress;
    destruct (release_in_sequence e seq) eqn:Hrel.
  - apply press_matches_spec in Hpress. apply release_in_sequence_spec in Hrel.
    by destruct (press_is_not_release e expected seq).
  - apply press_matches_spec in Hpress.
    split; [intros Hr; by destruct (press_is_not_release e expected seq)|].
    split; [done|]. intros [Hn _]. by destruct Hn.
  - apply release_in_sequence_spec in Hrel.
    split; [done|]. split; [done|]. intros [_ Hn]. by destruct Hn.
  - split.
    + intros Hr. apply release_in_sequence_spec in Hr. congruence.
    + split; [|done]. intros _. split.
      * intros Hp. apply press_matches_spec in Hp. congruence.
      * intros Hr. apply release_in_sequence_spec in Hr. congruence.
Qed.

(** C4: with the one stop sequence a and the events release a, press a,
    press a, the two presses bring the index to [-1] and then, because the
    inner loop is not left there, to [-2].  The release of a, a key of the
    sequence, comes next: the iteration starts with [sequence[-2]], which
    does not exist, so the release is not counted and the scan ends with
    IndexError, by neither of the two ways the loop has to end.  With one
    press less the index is still in the sequence and the same release is
    counted. *)
Theorem release_after_completion_raises :
  release_of (release_char "a") ["a"]
  ∧ scan_indices ["a"]
      (rev [release_char "a"; press_char "a"; press_char "a"]) 0
    = [0; -1; -2]
  ∧ py_index ["a"] (-2) = None
  ∧ scan_step ["a"] (release_char "a") (-2) = StepRaise IndexError
  ∧ scan_candidate ["a"] [release_char "a"; press_char "a"; press_char "a"]
    = Raised IndexError
  ∧ filter_stop_sequences [["a"]]
      [release_char "a"; press_char "a"; press_char "a"]
    = ([release_char "a"; press_char "a"; press_char "a"], Raised IndexError)
  ∧ scan_candidate ["a"] [release_char "a"; press_char "a"]
    = Returned (-1, 2%nat)
  ∧ filter_stop_sequences [["a"]] [release_char "a"; press_char "a"]
    = ([], Returned tt).
Proof.
  split.
  { split; [reflexivity|]. exists "a". split; [apply list_elem_of_here|].
    left. reflexivity. }
  repeat split.
Qed.

(** ** Press events and the expected position *)

Lemma scan_indices_consecutive seq backwards idx k i j :
  scan_indices seq backwards idx !! k = Some i →
  scan_indices seq backwards idx !! S k = Some j →
  j = i ∨ j = i - 1.
Proof.
  revert idx k. induction backwards as [|e earlier IH]; intros idx k Hi Hj.
  - by destruct k.
  - simpl in Hi, Hj.
    destruct (scan_step seq e idx) as [idx'| |x] eqn:Hstep; try by destruct k.
    destruct k as [|k].
    + simpl in Hi. injection Hi as <-.
      apply scan_step_Next in Hstep as [_ Hidx'].
      destruct earlier; simpl in Hj; injection Hj as <-; done.
    + simpl in Hi. apply (IH idx' k); done.
Qed.

(** A press event is matched against [sequence[idx]] only.  If it is that
    element the scan goes on with the index one lower and one more event to
    remove; if it is not, the scan of this candidate ends there and the
    press is not counted, whichever other elements of the sequence it
    equals.  The index starts at [len(sequence) - 1] and from one iteration
    to the next it stays or goes down by one.  Nothing here keeps the index
    from going below [0]. *)
Lemma press_is_compared_at_index
    (seq : list string) (e : ActionEvent) (idx : Z) (expected : string)
    (earlier : list ActionEvent) (n : nat) :
  name e = "press" →
  py_index seq idx = Some expected →
  (scan_step seq e idx = Next (idx - 1) ↔ key_is e expected)
  ∧ (key_is e expected →
       scan seq (e :: earlier) idx n = scan seq earlier (idx - 1) (S n))
  ∧ (¬ key_is e expected →
       scan seq (e :: earlier) idx n = Returned (idx, n))
  ∧ (∀ events, scan_indices seq (rev events) (Z.of_nat (length seq) - 1) !! 0%nat
               = Some (Z.of_nat (length seq) - 1))
  ∧ (∀ events k i j,
       scan_indices seq (rev events) (Z.of_nat (length seq) - 1) !! k = Some i →
       scan_indices seq (rev events) (Z.of_nat (length seq) - 1) !! S k = Some j →
       j = i ∨ j = i - 1).
Proof.
  intros Hname Hexp.
  assert (press_matches e expected = true ↔ key_is e expected) as Hspec.
  { rewrite press_matches_spec. unfold press_at. tauto. }
  assert (release_in_sequence e seq = false) as Hrel.
  { apply not_true_is_false. rewrite release_in_sequence_spec.
    intros [Hr _]. rewrite Hname in Hr. discriminate. }
  unfold scan. fold scan. unfold scan_step. rewrite Hexp, Hrel.
  destruct (press_matches e expected) eqn:Hpress.
  - assert (key_is e expected) as Hkey by by apply Hspec.
    repeat split; try done.
    + intros events. by destruct (rev events).
    + intros events k i j. apply scan_indices_consecutive.
  - assert (¬ key_is e expected) as Hkey.
    { intros Hk. apply Hspec in Hk. discriminate. }
    repeat split; try done.
    + intros events. by destruct (rev events).
    + intros events k i j. apply scan_indices_consecutive.
Qed.

(** C5: with the one stop sequence a, b and the events press b, press a,
    press b, the last two events match the whole sequence from its last
    element to its first and bring the index to [-1].  The inner loop goes
    on: the first press b is compared with [sequence[-1]], the last element
    once more, is counted, and moves the index to [-2].  The test after the
    loop then fails and no event is removed. *)
Theorem press_after_completion_is_counted :
  scan_indices ["a"; "b"]
    (rev [press_char "b"; press_char "a"; press_char "b"]) 1
  = [1; 0; -1; -2]
  ∧ py_index ["a"; "b"] (-1) = Some "b"
  ∧ scan_step ["a"; "b"] (press_char "b") (-1) = Next (-2)
  ∧ scan_candidate ["a"; "b"] [press_char "b"; press_char "a"; press_char "b"]
    = Returned (-2, 3%nat)
  ∧ scan_candidate ["a"; "b"] [press_char "a"; press_char "b"]
    = Returned (-1, 2%nat)
  ∧ filter_stop_sequences [["a"; "b"]]
      [press_char "b"; press_char "a"; press_char "b"]
    = ([press_char "b"; press_char "a"; press_char "b"], Returned tt).
Proof. repeat split. Qed.

(** The same with a stop string typed after a word that ends in its last
    letter, and with a key that repeats while held down: the first is not
    trimmed, the second raises. *)
Example stop_after_same_letter_is_kept :
  filter_stop_sequences [["s"; "t"; "o"; "p"]]
    (press_char <$> ["u"; "p"; "s"; "t"; "o"; "p"])
  = (press_char <$> ["u"; "p"; "s"; "t"; "o"; "p"], Returned tt).
Proof. reflexivity. Qed.

Example held_key_raises :
  filter_stop_sequences [["ctrl"; "ctrl"; "ctrl"]]
    (press_char "h" :: replicate 6 (press_key "ctrl"))
  = (press_char "h" :: replicate 6 (press_key "ctrl"), Raised IndexError).
Proof. reflexivity. Qed.

(** ** The Ctrl+C check *)

Lemma py_index_last_two {A} (l : list A) (a b : A) :
  py_index (l ++ [a; b]) (-1) = Some b ∧ py_index (l ++ [a; b]) (-2) = Some a.
Proof.
  assert (length (l ++ [a; b]) = (length l + 2)%nat) as Hlen
    by (rewrite length_app; done).
  unfold py_index. rewrite Hlen.
  split; repeat case_bool_decide; try lia.
  - replace (Z.to_nat (Z.of_nat (length l + 2) + -1)) with (length l + 1)%nat by lia.
    rewrite lookup_app_r by lia.
    by replace (length l + 1 - length l)%nat with 1%nat by lia.
  - replace (Z.to_nat (Z.of_nat (length l + 2) + -2)) with (length l + 0)%nat by lia.
    rewrite lookup_app_r by lia.
    by replace (length l + 0 - length l)%nat with 0%nat by lia.
Qed.

(** C6: when the last event has key char "c" and the one before it has key
    name "ctrl", [filter_stop_sequences] pops exactly these two events and
    returns, whatever [config.STOP_SEQUENCES] holds: the configured
    sequences are not looked at. *)
Theorem ctrl_c_is_removed_first
    (STOP_SEQUENCES : list (list string)) (events : list ActionEvent)
    (second_last last_event : ActionEvent) :
  canonical_key_name second_last = Some "ctrl" →
  canonical_key_char last_event = Some "c" →
  filter_stop_sequences STOP_SEQUENCES (events ++ [second_last; last_event])
  = (events, Returned tt).
Proof.
  intros Hctrl Hc.
  assert (ctrl_c_tail (events ++ [second_last; last_event]) = true) as Htail.
  { unfold ctrl_c_tail.
    destruct (py_index_last_two events second_last last_event) as [-> ->].
    rewrite length_app. simpl.
    rewrite bool_decide_eq_true_2 by lia.
    unfold py_eq. rewrite Hctrl, Hc. done. }
  unfold filter_stop_sequences, mbind, M_bind, get. simpl. rewrite Htail.
  replace (events ++ [second_last; last_event])
    with ((events ++ [second_last]) ++ [last_event])
    by (by rewrite <- app_assoc).
  rewrite !pop_snoc. done.
Qed.

Lemma ctrl_c_is_removed_first_witness :
  filter_stop_sequences [["c"]; []]
    ([press_char "h"; release_char "h"] ++ [press_key "ctrl"; press_char "c"])
  = ([press_char "h"; release_char "h"], Returned tt).
Proof. apply ctrl_c_is_removed_first; reflexivity. Defined.

(** ** [_insert]: filling the row *)

Lemma empty_row_lookup table key :
  empty_row table !! key
  = if bool_decide (key ∈ columns table) then Some PyNone else None.
Proof.
  unfold empty_row. generalize (columns table) as cols.
  induction cols as [|c cols IH].
  - rewrite fmap_nil, list_to_map_nil, lookup_empty.
    by rewrite bool_decide_eq_false_2 by apply not_elem_of_nil.
  - rewrite fmap_cons, list_to_map_cons. cbn [fst snd].
    destruct (decide (c = key)) as [->|Hne].
    + rewrite lookup_insert_eq.
      by rewrite bool_decide_eq_true_2 by apply list_elem_of_here.
    + rewrite lookup_insert_ne, IH by done.
      rewrite (bool_decide_ext (key ∈ c :: cols) (key ∈ cols)); [done|].
      rewrite elem_of_cons. split; [by intros [->|?]|by right].
Qed.

(** After the loop over [keys], [event_data] has lost exactly its keys among
    [keys], and [db_obj] has received their values. *)
Lemma foldl_move_value (keys : list string) (db_obj event_data : gmap string Any) key :
  (foldl move_value (db_obj, event_data) keys).2 !! key
  = (if bool_decide (key ∈ keys) then None else event_data !! key)
  ∧ (foldl move_value (db_obj, event_data) keys).1 !! key
    = (if bool_decide (key ∈ keys)
       then match event_data !! key with
            | Some val => Some val
            | None => db_obj !! key
            end
       else db_obj !! key).
Proof.
  revert db_obj event_data. induction keys as [|k keys IH]; intros db_obj event_data.
  - cbn [foldl fst snd].
    by rewrite bool_decide_eq_false_2 by apply not_elem_of_nil.
  - assert ((key ∈ k :: keys) ↔ k = key ∨ key ∈ keys) as Hcons
      by (rewrite elem_of_cons; split; intros [?|?]; auto).
    rewrite (bool_decide_ext _ _ Hcons).
    cbn [foldl]. unfold move_value at 2 4. cbn [fst snd].
    destruct (event_data !! k) as [val|] eqn:Hk.
    + destruct (IH (<[k:=val]> db_obj) (delete k event_data)) as [-> ->].
      destruct (decide (k = key)) as [->|Hne].
      * rewrite lookup_delete_eq, lookup_insert_eq, Hk.
        rewrite (bool_decide_eq_true_2 (key = key ∨ _)) by auto.
        by destruct (bool_decide (key ∈ keys)).
      * rewrite lookup_delete_ne, lookup_insert_ne by done.
        rewrite (bool_decide_ext (k = key ∨ key ∈ keys) (key ∈ keys)); [done|].
        split; [by intros [?|?]|by right].
    + destruct (IH db_obj event_data) as [-> ->].
      destruct (decide (k = key)) as [->|Hne].
      * rewrite Hk.
        rewrite (bool_decide_eq_true_2 (key = key ∨ _)) by auto.
        by destruct (bool_decide (key ∈ keys)).
      * rewrite (bool_decide_ext (k = key ∨ key ∈ keys) (key ∈ keys)); [done|].
        split; [by intros [?|?]|by right].
Qed.

Lemma fill_row_leftover event_data table key :
  (fill_row event_data table).2 !! key
  = if bool_decide (key ∈ columns table) then None else event_data !! key.
Proof. apply foldl_move_value. Qed.

Lemma fill_row_db_obj event_data table key :
  (fill_row event_data table).1 !! key
  = if bool_decide (key ∈ columns table)
    then Some (default PyNone (event_data !! key))
    else None.
Proof.
  unfold fill_row.
  destruct (foldl_move_value (columns table) (empty_row table) event_data key)
    as [_ ->].
  rewrite empty_row_lookup.
  destruct (bool_decide (key ∈ columns table)); [|done].
  by destruct (event_data !! key).
Qed.

(** The test [not event_data] after the loop. *)
Lemma fill_row_leftover_empty event_data table :
  size (fill_row event_data table).2 = 0%nat
  ↔ ∀ key, is_Some (event_data !! key) → key ∈ columns table.
Proof.
  rewrite map_size_empty_iff, map_empty. split.
  - intros Hnone key Hsome. specialize (Hnone key).
    rewrite fill_row_leftover in Hnone.
    case_bool_decide; [done|]. rewrite Hnone in Hsome. by destruct Hsome.
  - intros Hcols key. rewrite fill_row_leftover.
    case_bool_decide as Hin; [done|].
    destruct (event_data !! key) eqn:Hk; [|done].
    destruct Hin. apply Hcols. by rewrite Hk.
Qed.

Lemma _insert_raises accepts event_data table buffer s :
  size (fill_row event_data table).2 ≠ 0%nat →
  _insert accepts event_data table buffer s = (s, Raised AssertionError).
Proof.
  intros Hne. unfold _insert.
  destruct (fill_row event_data table) as [db_obj leftover]. simpl in *.
  by rewrite bool_decide_eq_false_2 by done.
Qed.

(** The call when the assertion passes: what the session receives, how the
    call ends, and what is left in the buffers. *)
Lemma _insert_passes accepts event_data table buffer s :
  size (fill_row event_data table).2 = 0%nat →
  let run := _insert accepts event_data table buffer s in
  let to_insert :=
    from_option (buffers s) [] buffer ++ [(fill_row event_data table).1] in
  run.2 = (if committed accepts (db s) table to_insert
           then Returned (Some CursorResult) else Raised SessionError)
  ∧ db run.1 = db s ++ received accepts (db s) table to_insert
  ∧ (∀ b, buffers run.1 b
          = if bool_decide (Some b = buffer)
            then (if committed accepts (db s) table to_insert
                  then [] else to_insert)
            else buffers s b)
  ∧ recordings run.1 = recordings s
  ∧ logged_errors run.1 = logged_errors s
  ∧ stdout run.1 = stdout s.
Proof.
  intros Hempty. unfold _insert, committed, received.
  destruct (fill_row event_data table) as [db_obj leftover]. simpl in *.
  rewrite bool_decide_eq_true_2 by done. simpl.
  destruct buffer as [b|]; simpl.
  - unfold mbind, M_bind, modify, get, mret, M_ret, session_call. simpl.
    rewrite (bool_decide_eq_true_2 (b = b)) by done.
    assert (length (buffers s b ++ [db_obj]) = S (length (buffers s b))) as Hlen
      by (rewrite length_app; simpl; lia).
    rewrite bool_decide_eq_true_2 by (unfold BATCH_SIZE; lia).
    destruct (buffers s b ++ [db_obj]) as [|row rows] eqn:Happ; [done|].
    simpl.
    destruct (accepts (db s) (Execute table (row :: rows))); simpl;
      [destruct (accepts (db s ++ [Execute table (row :: rows)]) Commit); simpl|];
      rewrite <- ?app_assoc; simpl; repeat split; try done;
      intros b'; destruct (decide (b' = b)) as [->|Hne];
      rewrite ?bool_decide_eq_true_2 by done; try done;
      rewrite ?(bool_decide_eq_false_2 (b' = b)) by done;
      by rewrite bool_decide_eq_false_2 by congruence.
  - unfold mbind, M_bind, modify, get, mret, M_ret, session_call. simpl.
    destruct (accepts (db s) (Execute table [db_obj])); simpl;
      [destruct (accepts (db s ++ [Execute table [db_obj]]) Commit); simpl|];
      rewrite <- ?app_assoc; simpl; repeat split; done.
Qed.

(** The assertion fails exactly when a key is left over. *)
Lemma leftover_key event_data table :
  size (fill_row event_data table).2 ≠ 0%nat
  ↔ ∃ key, is_Some (event_data !! key) ∧ key ∉ columns table.
Proof.
  split.
  - intros Hne.
    assert ((fill_row event_data table).2 ≠ ∅) as Hnonempty
      by (by rewrite <- map_size_empty_iff).
    apply map_choose in Hnonempty as (key & val & Hkey).
    rewrite fill_row_leftover in Hkey. exists key.
    case_bool_decide; [done|]. by rewrite Hkey.
  - intros (key & Hsome & Hnot) He. destruct Hnot.
    by apply (fill_row_leftover_empty event_data table).
Qed.

(** C10: [_insert] raises AssertionError exactly when [event_data] has a key
    that is not a column name of the table, whatever the session does.  When
    every key is a column name, the row handed to the session holds every
    provided value under its key, [None] under every other column, and
    nothing else; the call returns when the session accepts the [execute]
    and the [commit], and leaves with the session's exception when it does
    not. *)
Theorem _insert_asserts_keys_are_columns
    (accepts : Session) (event_data : gmap string Any) (table : Table)
    (buffer : option buffer) (s : Store) :
  ((_insert accepts event_data table buffer s).2 = Raised AssertionError
   ↔ ∃ key, is_Some (event_data !! key) ∧ key ∉ columns table)
  ∧ ((∀ key, is_Some (event_data !! key) → key ∈ columns table) →
     ∃ db_obj pending,
       (_insert accepts event_data table buffer s).2
       = (if committed accepts (db s) table (pending ++ [db_obj])
          then Returned (Some CursorResult) else Raised SessionError)
       ∧ db (_insert accepts event_data table buffer s).1
         = db s ++ received accepts (db s) table (pending ++ [db_obj])
       ∧ (∀ key val, event_data !! key = Some val → db_obj !! key = Some val)
       ∧ (∀ key, key ∈ columns table → event_data !! key = None →
                 db_obj !! key = Some PyNone)
       ∧ (∀ key, is_Some (db_obj !! key) ↔ key ∈ columns table)).
Proof.
  split.
  - rewrite <- leftover_key.
    destruct (decide (size (fill_row event_data table).2 = 0%nat)) as [He|Hne].
    + destruct (_insert_passes accepts event_data table buffer s He) as (-> & _).
      split; [|done]. by destruct (committed _ _ _ _).
    + by rewrite _insert_raises by done.
  - intros Hkeys.
    assert (size (fill_row event_data table).2 = 0%nat) as He
      by by apply fill_row_leftover_empty.
    destruct (_insert_passes accepts event_data table buffer s He)
      as (Hrun & Hdb & _).
    exists (fill_row event_data table).1, (from_option (buffers s) [] buffer).
    repeat split; try done.
    + intros key val Hval. rewrite fill_row_db_obj, Hval.
      rewrite bool_decide_eq_true_2; [done|]. apply Hkeys. by rewrite Hval.
    + intros key Hin Hnone. rewrite fill_row_db_obj, Hnone.
      by rewrite bool_decide_eq_true_2.
    + rewrite fill_row_db_obj. case_bool_decide; [done|]. by intros [? ?].
    + intros Hin. rewrite fill_row_db_obj. by rewrite bool_decide_eq_true_2.
Qed.

Lemma _insert_asserts_keys_are_columns_witness :
  ∃ db_obj pending,
    (_insert int64_session {["timestamp" := PyInt 7]} MemoryStat_example
       (Some memory_stats) (initial_store [])).2
    = (if committed int64_session (db (initial_store [])) MemoryStat_example
            (pending ++ [db_obj])
       then Returned (Some CursorResult) else Raised SessionError)
    ∧ db (_insert int64_session {["timestamp" := PyInt 7]} MemoryStat_example
            (Some memory_stats) (initial_store [])).1
      = db (initial_store [])
        ++ received int64_session (db (initial_store [])) MemoryStat_example
             (pending ++ [db_obj])
    ∧ (∀ key val, ({["timestamp" := PyInt 7]} : gmap string Any) !! key = Some val →
                  db_obj !! key = Some val)
    ∧ (∀ key, key ∈ columns MemoryStat_example →
              ({["timestamp" := PyInt 7]} : gmap string Any) !! key = None →
              db_obj !! key = Some PyNone)
    ∧ (∀ key, is_Some (db_obj !! key) ↔ key ∈ columns MemoryStat_example).
Proof.
  apply (proj2 (_insert_asserts_keys_are_columns int64_session
                  {["timestamp" := PyInt 7]} MemoryStat_example
                  (Some memory_stats) (initial_store []))).
  intros key [val Hval]. apply lookup_singleton_Some in Hval as [<- _].
  apply (bool_decide_unpack _). vm_compute. exact I.
Defined.

(** ** Batching *)

Lemma _insert_buffered accepts event_data table b s :
  size (fill_row event_data table).2 = 0%nat →
  let run := _insert accepts event_data table (Some b) s in
  let to_insert := buffers s b ++ [(fill_row event_data table).1] in
  run.2 = (if committed accepts (db s) table to_insert
           then Returned (Some CursorResult) else Raised SessionError)
  ∧ db run.1 = db s ++ received accepts (db s) table to_insert
  ∧ buffers run.1 b
    = (if committed accepts (db s) table to_insert then [] else to_insert)
  ∧ ∀ b', b' ≠ b → buffers run.1 b' = buffers s b'.
Proof.
  intros He run to_insert.
  destruct (_insert_passes accepts event_data table (Some b) s He)
    as (Hrun & Hdb & Hbuf & _).
  split; [done|]. split; [done|]. split.
  - unfold run. rewrite Hbuf. by rewrite bool_decide_eq_true_2.
  - intros b' Hne. unfold run. rewrite Hbuf.
    by rewrite bool_decide_eq_false_2 by congruence.
Qed.

Lemma bind_ret_store {A} (m : M Store A) (s : Store) :
  ((_ ← m; mret tt) s).1 = (m s).1.
Proof.
  unfold mbind, M_bind, mret, M_ret. by destruct (m s) as [s' [a|x]].
Qed.

Lemma bind_ret_outcome {A} (m : M Store A) (s : Store) :
  ((_ ← m; mret tt) s).2
  = match (m s).2 with Returned _ => Returned tt | Raised x => Raised x end.
Proof.
  unfold mbind, M_bind, mret, M_ret. by destruct (m s) as [s' [a|x]].
Qed.

(** A call [_insert(data, table, buffer)] whose result is dropped. *)
Lemma insert_and_drop_result accepts event_data table b s :
  let call := _ ← _insert accepts event_data table (Some b); mret tt in
  let to_insert := buffers s b ++ [(fill_row event_data table).1] in
  (size (fill_row event_data table).2 ≠ 0%nat
   ∧ call s = (s, Raised AssertionError))
  ∨ (size (fill_row event_data table).2 = 0%nat
     ∧ (call s).2 = (if committed accepts (db s) table to_insert
                     then Returned tt else Raised SessionError)
     ∧ db (call s).1 = db s ++ received accepts (db s) table to_insert
     ∧ buffers (call s).1 b
       = (if committed accepts (db s) table to_insert then [] else to_insert)
     ∧ ∀ b', b' ≠ b → buffers (call s).1 b' = buffers s b').
Proof.
  intros call to_insert. unfold call.
  destruct (decide (size (fill_row event_data table).2 = 0%nat)) as [He|Hne].
  - right. split; [done|].
    destruct (_insert_buffered accepts event_data table b s He)
      as (Hrun & Hdb & Hbuf & Hother).
    rewrite bind_ret_store, bind_ret_outcome, Hrun.
    split; [by destruct (committed _ _ _ _)|]. done.
  - left. split; [done|]. unfold mbind, M_bind.
    by rewrite _insert_raises.
Qed.

(** The calls of a session are accepted one after the other. *)
Lemma accepted_app accepts before calls later :
  accepted accepts before (calls ++ later)
  = accepted accepts before calls && accepted accepts (before ++ calls) later.
Proof.
  revert before. induction calls as [|call calls IH]; intros before; simpl.
  - by rewrite app_nil_r.
  - rewrite IH, <- app_assoc. simpl. by rewrite andb_assoc.
Qed.

Lemma accepted_received accepts calls table to_insert :
  accepted accepts calls (received accepts calls table to_insert)
  = committed accepts calls table to_insert.
Proof.
  unfold received, committed. simpl.
  destruct (accepts calls (Execute table to_insert)); simpl; [|done].
  by rewrite !andb_true_r.
Qed.

(** One call of an [insert_*] function: the session only receives more, and
    if it accepted all of it the buffers that were empty are empty again. *)
Lemma insert_step accepts event_data table b s :
  let s' := ((_ ← _insert accepts event_data table (Some b); mret tt) s).1 in
  ∃ more,
    db s' = db s ++ more
    ∧ (buffers_empty s → accepted accepts (db s) more = true →
       buffers_empty s'
       ∧ (more = [] ∨ more = [Execute table [(fill_row event_data table).1];
                              Commit])).
Proof.
  intros s'. unfold s'.
  destruct (insert_and_drop_result accepts event_data table b s)
    as [[_ ->]|(_ & _ & Hdb & Hbuf & Hother)].
  - exists []. split; [by rewrite app_nil_r|]. intros Hempty _. by split; [|left].
  - eexists. split; [exact Hdb|]. intros Hempty Hacc.
    rewrite accepted_received in Hacc.
    rewrite Hacc in Hbuf. split.
    + intros b'. destruct (decide (b' = b)) as [->|Hne]; [done|].
      by rewrite Hother.
    + right. unfold received. unfold committed in Hacc.
      apply andb_prop in Hacc as [-> _]. by rewrite Hempty.
Qed.

Lemma run_call_step accepts t1 t2 t3 t4 t5 c s :
  let s' := (run_call accepts t1 t2 t3 t4 t5 c s).1 in
  ∃ more,
    db s' = db s ++ more
    ∧ (buffers_empty s → accepted accepts (db s) more = true →
       buffers_empty s'
       ∧ (more = [] ∨ ∃ table row, more = [Execute table [row]; Commit])).
Proof.
  destruct c; simpl;
    unfold insert_action_event, insert_screenshot, insert_window_event,
      insert_perf_stat, insert_memory_stat;
    match goal with
    | |- context [_insert accepts ?d ?t (Some ?b)] =>
        destruct (insert_step accepts d t b s) as (more & Hdb & Hstep)
    end;
    (exists more; split; [exact Hdb|]; intros Hempty Hacc;
     destruct (Hstep Hempty Hacc) as [Hempty' [-> | ->]];
     (split; [exact Hempty'|]); [by left|right; eauto]).
Qed.

(** A series of calls in which the session accepted everything it received:
    the buffers are empty again, and every row went out on its own. *)
Lemma run_calls_accepted accepts t1 t2 t3 t4 t5 cs s :
  buffers_empty s →
  accepted accepts [] (db (run_calls accepts t1 t2 t3 t4 t5 cs s)) = true →
  buffers_empty (run_calls accepts t1 t2 t3 t4 t5 cs s)
  ∧ ∃ rows : list (Table * gmap string Any),
      db (run_calls accepts t1 t2 t3 t4 t5 cs s)
      = db s ++ (rows ≫= λ row, [Execute row.1 [row.2]; Commit]).
Proof.
  unfold run_calls. revert s.
  induction cs as [|c cs IH] using rev_ind; intros s Hempty Hacc.
  - simpl. split; [done|]. exists []. by rewrite app_nil_r.
  - rewrite foldl_app in *. cbn [foldl] in *.
    set (s1 := foldl _ s cs) in *.
    destruct (run_call_step accepts t1 t2 t3 t4 t5 c s1) as (more & Hdb & Hstep).
    rewrite Hdb in Hacc. rewrite accepted_app in Hacc.
    apply andb_prop in Hacc as [Hacc1 Hacc2]. simpl in Hacc2.
    destruct (IH s Hempty Hacc1) as [Hempty1 [rows Hrows]].
    destruct (Hstep Hempty1 Hacc2) as [Hempty' Hmore].
    split; [exact Hempty'|].
    rewrite Hdb. fold s1 in Hrows. rewrite Hrows.
    destruct Hmore as [->|(table & row & ->)].
    + exists rows. by rewrite app_nil_r.
    + exists (rows ++ [(table, row)]). rewrite bind_app, <- app_assoc. done.
Qed.

(** C7: [BATCH_SIZE] is 1.  A call of [_insert] with a
    buffer whose assertion passes appends its row and hands the session the
    whole buffer at once.  When the session accepts the [execute] and the
    [commit] the call returns and has cleared the buffer; when the session
    raises, the exception leaves the call and the row stays in the buffer.
    The other buffers are untouched.  Hence, from the module's initial state,
    after any series of [insert_*] calls in which the session accepted all it
    received, all five buffers are empty, and the next call hands the session
    exactly its own row. *)
Theorem batching_defers_only_refused_rows :
  BATCH_SIZE = 1
  ∧ (∀ accepts event_data table b s,
       (∃ key, is_Some (event_data !! key) ∧ key ∉ columns table) →
       _insert accepts event_data table (Some b) s = (s, Raised AssertionError))
  ∧ (∀ accepts event_data table b s,
       (∀ key, is_Some (event_data !! key) → key ∈ columns table) →
       let run := _insert accepts event_data table (Some b) s in
       let to_insert := buffers s b ++ [(fill_row event_data table).1] in
       run.2 = (if committed accepts (db s) table to_insert
                then Returned (Some CursorResult) else Raised SessionError)
       ∧ db run.1 = db s ++ received accepts (db s) table to_insert
       ∧ buffers run.1 b
         = (if committed accepts (db s) table to_insert then [] else to_insert)
       ∧ ∀ b', b' ≠ b → buffers run.1 b' = buffers s b')
  ∧ (∀ accepts ActionEvent_table Screenshot_table WindowEvent_table
       PerformanceStat_table MemoryStat_table calls rows,
       let s := run_calls accepts ActionEvent_table Screenshot_table
                  WindowEvent_table PerformanceStat_table MemoryStat_table
                  calls (initial_store rows) in
       accepted accepts [] (db s) = true →
       (∀ b, buffers s b = [])
       ∧ ∀ event_data table b,
           (∀ key, is_Some (event_data !! key) → key ∈ columns table) →
           db (_insert accepts event_data table (Some b) s).1
           = db s ++ received accepts (db s) table
                       [(fill_row event_data table).1]).
Proof.
  split; [done|]. split; [|split].
  - intros accepts event_data table b s Hkey.
    apply _insert_raises. by apply leftover_key.
  - intros accepts event_data table b s Hkeys.
    apply _insert_buffered. by apply fill_row_leftover_empty.
  - intros accepts t1 t2 t3 t4 t5 calls rows s Hacc.
    destruct (run_calls_accepted accepts t1 t2 t3 t4 t5 calls
                (initial_store rows)) as [Hempty _]; [done|exact Hacc|].
    split; [exact Hempty|].
    intros event_data table b Hkeys.
    assert (size (fill_row event_data table).2 = 0%nat) as He
      by by apply fill_row_leftover_empty.
    destruct (_insert_buffered accepts event_data table b s He)
      as (_ & Hdb & _).
    rewrite Hdb. fold s in Hempty. by rewrite (Hempty b).
Qed.

Lemma batching_defers_only_refused_rows_witness :
  buffers_empty
    (run_calls int64_session MemoryStat_example MemoryStat_example
       MemoryStat_example MemoryStat_example MemoryStat_example
       [CallMemoryStat example_recording 4096 (PyInt 101);
        CallMemoryStat example_recording 8192 (PyInt 103)]
       (initial_store [])).
Proof.
  refine (proj1 (proj2 (proj2 (proj2 batching_defers_only_refused_rows))
                   int64_session MemoryStat_example MemoryStat_example
                   MemoryStat_example MemoryStat_example MemoryStat_example
                   [CallMemoryStat example_recording 4096 (PyInt 101);
                    CallMemoryStat example_recording 8192 (PyInt 103)]
                   [] _)).
  vm_compute. reflexivity.
Defined.

(** With a session that refuses a row, a buffer is not empty after the call:
    [insert_memory_stat] with 2^63 bytes raises, its row is still in
    [memory_stats] afterwards, and the next call hands the session both
    rows. *)
Lemma refused_row_stays_in_the_buffer :
  let first := insert_memory_stat int64_session MemoryStat_example
                 example_recording (2 ^ 63) (PyInt 101) (initial_store []) in
  let second := insert_memory_stat int64_session MemoryStat_example
                  example_recording 4096 (PyInt 102) first.1 in
  first.2 = Raised SessionError
  ∧ length (buffers first.1 memory_stats) = 1%nat
  ∧ ¬ buffers_empty first.1
  ∧ second.2 = Raised SessionError
  ∧ length (buffers second.1 memory_stats) = 2%nat
  ∧ db second.1
    = [Execute MemoryStat_example (buffers first.1 memory_stats);
       Execute MemoryStat_example (buffers second.1 memory_stats)].
Proof.
  intros first second.
  split; [by vm_compute|]. split; [by vm_compute|]. split.
  { intros Hempty. specialize (Hempty memory_stats).
    apply (f_equal length) in Hempty. vm_compute in Hempty. discriminate. }
  split; [by vm_compute|]. split; [by vm_compute|]. by vm_compute.
Qed.

(** ** Migrations *)

Lemma filter_other_names (cols : list op.Column) (column : op.Column) :
  op.column_name column ∉ op.column_name <$> cols →
  filter (λ c, op.column_name c ≠ op.column_name column) (cols ++ [column]) = cols.
Proof.
  intros Hfresh. rewrite filter_app.
  rewrite (filter_cons_False _ column []) by (intros Hne; by apply Hne).
  rewrite filter_nil, app_nil_r.
  induction cols as [|c cols IH]; [done|].
  rewrite fmap_cons in Hfresh. apply not_elem_of_cons in Hfresh as [Hne Hfresh].
  rewrite filter_cons_True by done. f_equal. by apply IH.
Qed.




(** ** [scrub_recording] *)

Lemma find_by_id_Some recording_id rows r :
  List.find (λ r, bool_decide (id r = recording_id)) rows = Some r →
  id r = recording_id.
Proof.
  intros H. apply find_some in H as [_ H]. by apply bool_decide_eq_true in H.
Qed.

(** C9: with scrubbing enabled, [crud.scrub_recording] asks the session for
    the recording with id 2 and for nothing else, whatever it was given; the
    exception or return, the recordings as they are left, the printed line
    and the buffers are the same for any two arguments, and the recording
    whose task description is overwritten is the one with id 2.  The REST
    handler looks up the id of the route and, if it finds a recording,
    passes it on, and the second lookup is again for id 2. *)
Theorem scrub_recording_ignores_its_argument
    (EventRow : Type) (scrub_text : Any → Any)
    (get_events : Recording → list EventRow)
    (rows2dicts : list EventRow → list (gmap string Any))
    (scrub_list_dicts : list (gmap string Any) → list (gmap string Any))
    (str_argument : scrub_argument → string)
    (str_dict : gmap string Any → string)
    (argument argument' : scrub_argument) (recording_id : Z) (s : Store) :
  let scrub := crud.scrub_recording true EventRow scrub_text get_events
                 rows2dicts scrub_list_dicts str_argument str_dict in
  let route := RecordingsAPI.scrub_recording true EventRow scrub_text
                 get_events rows2dicts scrub_list_dicts str_argument str_dict in
  db (scrub argument s).1 = db s ++ [QueryRecordingById 2]
  ∧ db (scrub argument' s).1 = db (scrub argument s).1
  ∧ (scrub argument' s).2 = (scrub argument s).2
  ∧ recordings (scrub argument' s).1 = recordings (scrub argument s).1
  ∧ stdout (scrub argument' s).1 = stdout (scrub argument s).1
  ∧ buffers (scrub argument' s).1 = buffers (scrub argument s).1
  ∧ recordings (scrub argument s).1
    = match List.find (λ r, bool_decide (id r = 2)) (recordings s) with
      | Some recording =>
          assign_task_description 2
            (scrub_text (task_description recording)) (recordings s)
      | None => recordings s
      end
  ∧ db (route recording_id s).1
    = match List.find (λ r, bool_decide (id r = recording_id)) (recordings s) with
      | Some _ => [QueryRecordingById recording_id; QueryRecordingById 2]
      | None => [QueryRecordingById recording_id]
      end.
Proof.
  intros scrub route.
  unfold scrub, route, RecordingsAPI.scrub_recording, crud.scrub_recording,
    new_session, get_recording_by_id, mbind, M_bind, modify, raise, mret, M_ret.
  simpl.
  assert (∀ r recording_id', List.find (λ r, bool_decide (id r = recording_id'))
                               (recordings s) = Some r → id r = recording_id')
    as Hid by (intros; by eapply find_by_id_Some).
  destruct (List.find (λ r, bool_decide (id r = 2)) (recordings s))
    as [recording|] eqn:Hfind.
  - destruct (List.find (λ r, bool_decide (id r = recording_id)) (recordings s))
      as [found|]; simpl; [rewrite Hfind|];
      destruct (scrub_list_dicts _) as [|first_dict dicts]; simpl;
      rewrite (Hid recording 2 Hfind); done.
  - simpl.
    destruct (List.find (λ r, bool_decide (id r = recording_id)) (recordings s))
      as [found|]; simpl; [rewrite Hfind|]; simpl; done.
Qed.

(** * Further properties of the code *)

(** ** [filter_stop_sequences]: what is left of the list *)

Lemma rev_is_reverse {A} (l : list A) : rev l = reverse l.
Proof.
  induction l as [|x l IH]; [done|]. simpl. by rewrite reverse_cons, IH.
Qed.

Lemma pop_n_overflow {A} (n : nat) (l : list A) :
  (length l < n)%nat → pop_n n l = ([], Raised IndexError).
Proof.
  revert n. induction l as [|x l IH] using rev_ind; intros n Hn.
  - destruct n; [simpl in Hn; lia|]. done.
  - destruct n as [|n]; [lia|].
    rewrite length_app in Hn. simpl in Hn. simpl.
    unfold mbind, M_bind. rewrite pop_snoc. apply IH. lia.
Qed.

Lemma scan_raises_IndexError seq backwards idx n x :
  scan seq backwards idx n = Raised x → x = IndexError.
Proof.
  revert idx n. induction backwards as [|e earlier IH]; intros idx n; simpl.
  - done.
  - unfold scan_step. destruct (py_index seq idx) as [expected|].
    + destruct (press_matches e expected); [apply IH|].
      destruct (release_in_sequence e seq); [apply IH|done].
    + by intros [= <-].
Qed.

Lemma scan_sequences_raises_IndexError seqs i events n x :
  scan_sequences seqs i events n = Raised x → x = IndexError.
Proof.
  revert i n. induction seqs as [|seq seqs IH]; intros i n; simpl; [done|].
  destruct (scan seq (rev events) _ n) as [[idx n']|x'] eqn:Hscan.
  - case_bool_decide; [done|apply IH].
  - intros [= <-]. by apply scan_raises_IndexError in Hscan.
Qed.

Lemma ctrl_c_tail_length events :
  ctrl_c_tail events = true → (2 ≤ length events)%nat.
Proof.
  unfold ctrl_c_tail. intros H. apply andb_true_iff in H as [H _].
  apply bool_decide_eq_true in H. lia.
Qed.

(** The function by cases: the list it leaves and the way it ends. *)
Lemma filter_stop_sequences_cases seqs events :
  filter_stop_sequences seqs events
  = if ctrl_c_tail events then (take (length events - 2) events, Returned tt)
    else match scan_sequences seqs 0 events 0 with
         | Raised x => (events, Raised x)
         | Returned (i, n) =>
             if bool_decide (i ≠ -1) then
               if bool_decide (n ≤ length events)%nat
               then (take (length events - n) events, Returned tt)
               else ([], Raised IndexError)
             else (events, Returned tt)
         end.
Proof.
  unfold filter_stop_sequences, mbind, M_bind, get, lift. simpl.
  destruct (ctrl_c_tail events) eqn:Hctrl.
  - apply ctrl_c_tail_length in Hctrl.
    change (pop_n 2 events = (take (length events - 2) events, Returned tt)).
    by apply pop_n_take.
  - destruct (scan_sequences seqs 0 events 0) as [[i n]|x]; [|done].
    simpl. case_bool_decide; [|done].
    case_bool_decide; [by apply pop_n_take|apply pop_n_overflow; lia].
Qed.

(** X1: whatever the configuration and however the call ends, the list
    [filter_stop_sequences] leaves behind is a prefix of the list it was
    given: events are only ever taken from the end. *)
Theorem filter_leaves_a_prefix
    (STOP_SEQUENCES : list (list string)) (events : list ActionEvent) :
  (filter_stop_sequences STOP_SEQUENCES events).1 `prefix_of` events.
Proof.
  rewrite filter_stop_sequences_cases.
  destruct (ctrl_c_tail events); [apply prefix_take|].
  destruct (scan_sequences STOP_SEQUENCES 0 events 0) as [[i n]|x]; [|done].
  repeat case_bool_decide; simpl;
    [apply prefix_take|apply prefix_nil|done].
Qed.

(** X2: the only exception [filter_stop_sequences] raises is IndexError,
    and when it does the list is either as it was (the exception came from
    indexing a stop sequence) or empty (it came from popping more events
    than there are). *)
Theorem filter_raises_only_IndexError
    (STOP_SEQUENCES : list (list string)) (events : list ActionEvent) (x : exn) :
  (filter_stop_sequences STOP_SEQUENCES events).2 = Raised x →
  x = IndexError
  ∧ ((filter_stop_sequences STOP_SEQUENCES events).1 = events
     ∨ (filter_stop_sequences STOP_SEQUENCES events).1 = []).
Proof.
  rewrite filter_stop_sequences_cases.
  destruct (ctrl_c_tail events); [done|].
  destruct (scan_sequences STOP_SEQUENCES 0 events 0) as [[i n]|x'] eqn:Hscan.
  - repeat case_bool_decide; simpl; try done.
    intros [= <-]. auto.
  - simpl. intros [= <-]. split; [|by left].
    by apply scan_sequences_raises_IndexError in Hscan.
Qed.

Lemma filter_raises_only_IndexError_witness :
  IndexError = IndexError
  ∧ ((filter_stop_sequences [["a"; "b"]; ["x"; "b"]]
        [press_char "x"; press_char "b"]).1
     = [press_char "x"; press_char "b"]
     ∨ (filter_stop_sequences [["a"; "b"]; ["x"; "b"]]
          [press_char "x"; press_char "b"]).1 = []).
Proof.
  apply (filter_raises_only_IndexError [["a"; "b"]; ["x"; "b"]]
           [press_char "x"; press_char "b"] IndexError).
  reflexivity.
Defined.

Lemma scan_sequences_of_no_events seqs i :
  ∃ j, scan_sequences seqs i [] 0 = Returned (j, 0%nat).
Proof.
  revert i. induction seqs as [|seq seqs IH]; intros i; simpl; [eauto|].
  case_bool_decide; [eauto|apply IH].
Qed.

(** X3: on an empty list of events [filter_stop_sequences] returns and
    leaves the list empty, for every configuration, also one that holds an
    empty stop sequence. *)
Theorem filter_of_no_events (STOP_SEQUENCES : list (list string)) :
  filter_stop_sequences STOP_SEQUENCES [] = ([], Returned tt).
Proof.
  rewrite filter_stop_sequences_cases.
  destruct (scan_sequences_of_no_events STOP_SEQUENCES 0) as [j ->].
  simpl. by case_bool_decide.
Qed.

(** ** [filter_stop_sequences]: events that stop every scan *)

Lemma py_index_last {A} (l : list A) (x : A) :
  py_index (l ++ [x]) (-1) = Some x.
Proof.
  assert (length (l ++ [x]) = (length l + 1)%nat) as Hlen
    by (rewrite length_app; done).
  unfold py_index. rewrite Hlen. repeat case_bool_decide; try lia.
  replace (Z.to_nat (Z.of_nat (length l + 1) + -1)) with (length l + 0)%nat by lia.
  rewrite lookup_app_r by lia.
  by replace (length l + 0 - length l)%nat with 0%nat by lia.
Qed.

Lemma ctrl_c_tail_last events e :
  ctrl_c_tail (events ++ [e]) = true → canonical_key_char e = Some "c".
Proof.
  unfold ctrl_c_tail. rewrite py_index_last. intros H.
  apply andb_true_iff in H as [_ H].
  destruct (py_index (events ++ [e]) (-2)); [|done].
  apply andb_true_iff in H as [H _]. by apply py_eq_spec in H.
Qed.

Lemma scan_stops_at_other_event seq e earlier n :
  seq ≠ [] → name e ≠ "press" → name e ≠ "release" →
  scan seq (e :: earlier) (Z.of_nat (length seq) - 1) n
  = Returned (Z.of_nat (length seq) - 1, n).
Proof.
  intros Hseq Hpress Hrelease. simpl. unfold scan_step.
  destruct (py_index_nonneg seq (Z.of_nat (length seq) - 1)) as [expected ->].
  { destruct seq; [done|]. simpl. lia. }
  assert (press_matches e expected = false) as ->.
  { apply not_true_is_false. rewrite press_matches_spec. by intros [? _]. }
  assert (release_in_sequence e seq = false) as ->.
  { apply not_true_is_false. rewrite release_in_sequence_spec. by intros [? _]. }
  done.
Qed.

Lemma scan_sequences_all_stop seqs i e earlier n :
  Forall (λ seq, seq ≠ []) seqs → name e ≠ "press" → name e ≠ "release" →
  scan_sequences seqs i (rev (e :: earlier)) n = Returned (-1, n).
Proof.
  intros Hall Hpress Hrelease. revert i.
  induction Hall as [|seq seqs Hseq _ IH]; intros i; [done|].
  cbn [scan_sequences]. rewrite rev_involutive.
  rewrite scan_stops_at_other_event by done.
  rewrite bool_decide_eq_false_2; [apply IH|].
  destruct seq; [done|]. simpl. lia.
Qed.

(** X4: when the last event is neither a press nor a release (a mouse
    event, say), does not carry the key char "c", and no configured stop
    sequence is empty, nothing is removed: a stop sequence typed before such
    an event stays in the recording. *)
Theorem trailing_other_event_keeps_everything
    (STOP_SEQUENCES : list (list string)) (events : list ActionEvent)
    (e : ActionEvent) :
  name e ≠ "press" → name e ≠ "release" →
  canonical_key_char e ≠ Some "c" →
  Forall (λ seq, seq ≠ []) STOP_SEQUENCES →
  filter_stop_sequences STOP_SEQUENCES (events ++ [e])
  = (events ++ [e], Returned tt).
Proof.
  intros Hpress Hrelease Hc Hall. rewrite filter_stop_sequences_cases.
  destruct (ctrl_c_tail (events ++ [e])) eqn:Hctrl.
  { by apply ctrl_c_tail_last in Hctrl. }
  replace (events ++ [e]) with (rev (e :: rev events)) at 1
    by (simpl; by rewrite rev_involutive).
  rewrite scan_sequences_all_stop by done.
  by rewrite bool_decide_eq_false_2 by (intros H; by apply H).
Qed.

Lemma trailing_other_event_keeps_everything_witness :
  filter_stop_sequences [["s"; "t"; "o"; "p"]; ["ctrl"; "ctrl"; "ctrl"]]
    ((press_char <$> ["s"; "t"; "o"; "p"])
     ++ [{| name := "click"; canonical_key_char := None;
            canonical_key_name := None |}])
  = ((press_char <$> ["s"; "t"; "o"; "p"])
     ++ [{| name := "click"; canonical_key_char := None;
            canonical_key_name := None |}], Returned tt).
Proof.
  apply trailing_other_event_keeps_everything; try done.
  repeat (apply Forall_cons; split; [done|]). by apply Forall_nil.
Defined.

(** X5: an empty stop sequence in the configuration makes the call raise
    IndexError on every non-empty list of events that reaches it (the
    Ctrl+C check does not fire and the candidates before it fall short);
    the list is left as it was. *)
Theorem empty_stop_sequence_raises
    (earlier later : list (list string)) (events : list ActionEvent) :
  events ≠ [] →
  ctrl_c_tail events = false →
  Forall (λ seq, falls_short seq events) earlier →
  filter_stop_sequences (earlier ++ [] :: later) events
  = (events, Raised IndexError).
Proof.
  intros Hne Hctrl Hshort. rewrite filter_stop_sequences_cases, Hctrl.
  destruct (scan_sequences_skip earlier ([] :: later) 0 events 0 Hshort)
    as (n' & _ & ->).
  cbn [scan_sequences]. destruct (rev events) as [|e backwards] eqn:Hrev.
  - destruct Hne. apply (f_equal (@rev _)) in Hrev.
    by rewrite rev_involutive in Hrev.
  - done.
Qed.

Lemma empty_stop_sequence_raises_witness :
  filter_stop_sequences ([["q"]] ++ [] :: [["s"]]) [press_char "s"]
  = ([press_char "s"], Raised IndexError).
Proof.
  apply empty_stop_sequence_raises; [done|done|].
  apply Forall_cons. split; [|by apply Forall_nil].
  exists 0, 0%nat. split; [reflexivity|lia].
Defined.

(** ** [filter_stop_sequences]: a typed stop sequence *)

Lemma py_index_elem_of {A} (l : list A) (i : Z) (x : A) :
  py_index l i = Some x → x ∈ l.
Proof.
  unfold py_index. intros H.
  repeat case_bool_decide; try done; by eapply list_elem_of_lookup_2.
Qed.

Lemma py_index_app_middle {A} (front back : list A) (x : A) :
  py_index (front ++ x :: back) (Z.of_nat (length front)) = Some x.
Proof.
  unfold py_index. rewrite bool_decide_eq_true_2 by lia.
  rewrite Nat2Z.id. by rewrite list_lookup_middle.
Qed.

(** Presses of the elements of [front], in order, are matched one by one
    from the last to the first and bring the index to [-1]. *)
Lemma scan_typed_presses front back typed rest n :
  Forall2 press_at typed front →
  scan (front ++ back) (rev typed ++ rest) (Z.of_nat (length front) - 1) n
  = scan (front ++ back) rest (-1) (n + length front)%nat.
Proof.
  revert back typed n.
  induction front as [|x front IH] using rev_ind; intros back typed n Htyped.
  - apply Forall2_nil_inv_r in Htyped as ->. simpl. f_equal. lia.
  - apply Forall2_app_inv_r in Htyped as (t1 & t2 & Ht1 & Ht2 & ->).
    apply Forall2_cons_inv_r in Ht2 as (e & t3 & He & Ht3 & ->).
    apply Forall2_nil_inv_r in Ht3 as ->.
    rewrite rev_app_distr. cbn [rev app scan].
    rewrite length_app. cbn [length].
    replace (Z.of_nat (length front + 1) - 1) with (Z.of_nat (length front)) by lia.
    rewrite <- app_assoc. cbn [app].
    unfold scan_step. rewrite py_index_app_middle.
    assert (press_matches e x = true) as -> by by apply press_matches_spec.
    rewrite (IH (x :: back) t1 (S n) Ht1). f_equal. lia.
Qed.

Lemma py_index_minus_one_last {A} (l : list A) (x : A) :
  last l = Some x → py_index l (-1) = Some x.
Proof. intros [l' ->]%last_Some. apply py_index_last. Qed.

Lemma scan_step_Break seq e idx expected :
  py_index seq idx = Some expected →
  ¬ press_at e expected → ¬ release_of e seq →
  scan_step seq e idx = Break.
Proof.
  intros Hexp Hpress Hrelease. unfold scan_step. rewrite Hexp.
  rewrite (not_true_is_false (press_matches e expected))
    by by rewrite press_matches_spec.
  by rewrite (not_true_is_false (release_in_sequence e seq))
    by by rewrite release_in_sequence_spec.
Qed.

(** X6: when the recording ends with presses of the elements of the first
    configured stop sequence, in order and with nothing in between, and the
    event before them (if there is one) is neither a press of the last
    element nor a release of a key of the sequence, exactly these presses
    are removed. *)
Theorem typed_stop_sequence_is_removed
    (seq : list string) (later : list (list string))
    (events typed : list ActionEvent) (expected : string) :
  last seq = Some expected →
  Forall2 press_at typed seq →
  ctrl_c_tail (events ++ typed) = false →
  (∀ before e, events = before ++ [e] →
     ¬ press_at e expected ∧ ¬ release_of e seq) →
  filter_stop_sequences (seq :: later) (events ++ typed)
  = (events, Returned tt).
Proof.
  intros Hlast Htyped Hctrl Hbefore.
  assert (length typed = length seq) as Hlen by by eapply Forall2_length.
  assert (scan seq (rev (events ++ typed)) (Z.of_nat (length seq) - 1) 0
          = Returned (-1, length seq)) as Hscan.
  { rewrite rev_app_distr.
    rewrite <- (app_nil_r seq) at 1 3.
    rewrite (scan_typed_presses seq [] typed (rev events) 0 Htyped).
    rewrite app_nil_r. simpl.
    destruct events as [|e0 events0] using rev_ind; [done|].
    rewrite rev_app_distr. simpl.
    destruct (Hbefore events0 e0 eq_refl) as [Hp Hr].
    by rewrite (scan_step_Break seq e0 (-1) expected)
      by auto using py_index_minus_one_last. }
  rewrite filter_stop_sequences_cases, Hctrl.
  cbn [scan_sequences]. rewrite Hscan. simpl.
  rewrite bool_decide_eq_true_2 by (rewrite length_app; lia).
  rewrite length_app, Hlen.
  replace (length events + length seq - length seq)%nat with (length events) by lia.
  by rewrite take_app_length.
Qed.

Lemma typed_stop_sequence_is_removed_witness :
  filter_stop_sequences [["s"; "t"; "o"; "p"]; ["t"; "o"; "p"]]
    ([press_char "u"; press_char "h"] ++ (press_char <$> ["s"; "t"; "o"; "p"]))
  = ([press_char "u"; press_char "h"], Returned tt).
Proof.
  apply (typed_stop_sequence_is_removed ["s"; "t"; "o"; "p"] [["t"; "o"; "p"]]
           [press_char "u"; press_char "h"]
           (press_char <$> ["s"; "t"; "o"; "p"]) "p").
  - reflexivity.
  - cbn. repeat (constructor; [split; [reflexivity|left; reflexivity]|]).
    constructor.
  - reflexivity.
  - intros before e Heq.
    apply (app_inj_tail [press_char "u"] before (press_char "h") e) in Heq
      as [_ <-].
    split.
    + intros [_ [H|H]]; discriminate.
    + intros [H _]; discriminate.
Defined.

(** ** [filter_stop_sequences]: what a completed scan removes *)

Lemma presses_cons_press e events :
  name e = "press" → presses (e :: events) = e :: presses events.
Proof. intros H. unfold presses. by rewrite filter_cons_True. Qed.

Lemma presses_cons_other e events :
  name e ≠ "press" → presses (e :: events) = presses events.
Proof. intros H. unfold presses. by rewrite filter_cons_False. Qed.

(** The events a scan counts are key events of its sequence, and the index
    has gone down by the number of presses among them. *)
Lemma scan_counted seq backwards idx k idx' n :
  scan seq backwards idx k = Returned (idx', n) →
  Forall (key_event_of seq) (take (n - k) backwards)
  ∧ Z.of_nat (length (presses (take (n - k) backwards))) = idx - idx'.
Proof.
  revert idx k. induction backwards as [|e earlier IH]; intros idx k Hscan.
  - simpl in Hscan. injection Hscan as <- <-. rewrite take_nil.
    split; [by apply Forall_nil|simpl; lia].
  - simpl in Hscan. unfold scan_step in Hscan.
    destruct (py_index seq idx) as [expected|] eqn:Hexp; [|done].
    destruct (press_matches e expected) eqn:Hpress.
    + apply press_matches_spec in Hpress as [Hname Hkey].
      pose proof (scan_count_bound _ _ _ _ _ _ Hscan) as Hbound.
      destruct (IH _ _ Hscan) as [Hall Hcount].
      replace (n - k)%nat with (S (n - S k)) by lia. cbn [take].
      split.
      * apply Forall_cons. split; [|done]. split; [by left|].
        exists expected. split; [by eapply py_index_elem_of|done].
      * rewrite presses_cons_press by done. cbn [length]. lia.
    + destruct (release_in_sequence e seq) eqn:Hrel.
      * apply release_in_sequence_spec in Hrel as [Hname Hkey].
        pose proof (scan_count_bound _ _ _ _ _ _ Hscan) as Hbound.
        destruct (IH _ _ Hscan) as [Hall Hcount].
        replace (n - k)%nat with (S (n - S k)) by lia. cbn [take].
        split.
        -- apply Forall_cons. split; [|done]. split; [by right|done].
        -- rewrite presses_cons_other by (rewrite Hname; discriminate). lia.
      * injection Hscan as <- <-. rewrite Nat.sub_diag. cbn [take].
        split; [by apply Forall_nil|simpl; lia].
Qed.

(** X7: when the first configured candidate completes (and the Ctrl+C
    check did not fire) the call returns and the events it has removed are
    the ones that scan counted: every one of them is a press or a release
    of a key of that sequence, and exactly [len(sequence)] of them are
    presses. *)
Theorem removed_run_is_made_of_sequence_keys
    (seq : list string) (later : list (list string))
    (events : list ActionEvent) (n : nat) :
  ctrl_c_tail events = false →
  scan_candidate seq events = Returned (-1, n) →
  ∃ removed,
    filter_stop_sequences (seq :: later) events
    = (take (length events - n) events, Returned tt)
    ∧ events = take (length events - n) events ++ removed
    ∧ length removed = n
    ∧ Forall (key_event_of seq) removed
    ∧ length (presses removed) = length seq.
Proof.
  intros Hctrl Hscan. exists (drop (length events - n) events).
  unfold scan_candidate in Hscan.
  pose proof (scan_count_bound _ _ _ _ _ _ Hscan) as Hbound.
  rewrite length_rev in Hbound.
  destruct (scan_counted _ _ _ _ _ _ Hscan) as [Hall Hcount].
  rewrite Nat.sub_0_r, rev_is_reverse, take_reverse in Hall, Hcount.
  split; [|split; [|split; [|split]]].
  - rewrite filter_stop_sequences_cases, Hctrl. cbn [scan_sequences].
    rewrite Hscan. simpl. by rewrite bool_decide_eq_true_2 by lia.
  - by rewrite take_drop.
  - rewrite length_drop. lia.
  - by rewrite Forall_reverse in Hall.
  - unfold presses in *. rewrite filter_reverse, length_reverse in Hcount. lia.
Qed.

Lemma removed_run_is_made_of_sequence_keys_witness :
  ∃ removed,
    filter_stop_sequences [["a"; "b"]]
      [press_char "h"; press_char "a"; release_char "a";
       press_char "b"; release_char "b"]
    = (take (length [press_char "h"; press_char "a"; release_char "a";
                     press_char "b"; release_char "b"] - 4)
         [press_char "h"; press_char "a"; release_char "a";
          press_char "b"; release_char "b"], Returned tt)
    ∧ [press_char "h"; press_char "a"; release_char "a";
       press_char "b"; release_char "b"]
      = take (length [press_char "h"; press_char "a"; release_char "a";
                      press_char "b"; release_char "b"] - 4)
          [press_char "h"; press_char "a"; release_char "a";
           press_char "b"; release_char "b"] ++ removed
    ∧ length removed = 4%nat
    ∧ Forall (key_event_of ["a"; "b"]) removed
    ∧ length (presses removed) = length ["a"; "b"].
Proof.
  apply (removed_run_is_made_of_sequence_keys ["a"; "b"] []); reflexivity.
Defined.

(** ** [get_action_events] *)

(** X8: [get_action_events] fails its assertion when there is no recording
    and never otherwise; what it returns for a recording is a prefix of the
    stored events of that recording, and it is all of them when there is no
    event at all or when the last event is neither a press nor a release,
    has not the key char "c", and no configured stop sequence is empty. *)
Theorem get_action_events_returns_a_prefix
    (STOP_SEQUENCES : list (list string)) (stored : Z → list ActionEvent)
    (recording : Recording) :
  get_action_events STOP_SEQUENCES stored None = Raised AssertionError
  ∧ get_action_events STOP_SEQUENCES stored (Some recording)
    ≠ Raised AssertionError
  ∧ (∀ events,
       get_action_events STOP_SEQUENCES stored (Some recording) = Returned events →
       events `prefix_of` stored (id recording))
  ∧ (stored (id recording) = [] →
     get_action_events STOP_SEQUENCES stored (Some recording) = Returned [])
  ∧ (∀ events e,
       stored (id recording) = events ++ [e] →
       name e ≠ "press" → name e ≠ "release" →
       canonical_key_char e ≠ Some "c" →
       Forall (λ seq, seq ≠ []) STOP_SEQUENCES →
       get_action_events STOP_SEQUENCES stored (Some recording)
       = Returned (events ++ [e])).
Proof.
  unfold get_action_events. cbn zeta.
  rewrite filter_stop_sequences_cases.
  split; [done|]. split; [|split; [|split]].
  - destruct (ctrl_c_tail _); [done|].
    destruct (scan_sequences _ _ _ _) as [[i n]|x] eqn:Hscan.
    + by repeat case_bool_decide.
    + apply scan_sequences_raises_IndexError in Hscan as ->. done.
  - intros events. destruct (ctrl_c_tail _).
    { intros [= <-]. apply prefix_take. }
    destruct (scan_sequences _ _ _ _) as [[i n]|x]; [|done].
    repeat case_bool_decide; simpl; intros [= <-];
      [apply prefix_take|done].
  - intros ->. simpl.
    destruct (scan_sequences_of_no_events STOP_SEQUENCES 0) as [j ->].
    simpl. by case_bool_decide.
  - intros events e -> Hp Hr Hc Hall.
    destruct (ctrl_c_tail (events ++ [e])) eqn:Hctrl.
    { by apply ctrl_c_tail_last in Hctrl. }
    assert (scan_sequences STOP_SEQUENCES 0 (events ++ [e]) 0
            = Returned (-1, 0%nat)) as ->.
    { replace (events ++ [e]) with (rev (e :: rev events))
        by (simpl; by rewrite rev_involutive).
      by apply scan_sequences_all_stop. }
    by rewrite bool_decide_eq_false_2 by (intros H; by apply H).
Qed.

Lemma get_action_events_returns_a_prefix_witness :
  get_action_events [["s"; "t"]]
    (λ _, [press_char "h"; press_char "s"; press_char "t"])
    (Some {| id := 5; timestamp := PyInt 0; task_description := PyNone |})
  = Returned [press_char "h"]
  ∧ [press_char "h"] `prefix_of` [press_char "h"; press_char "s"; press_char "t"].
Proof.
  split; [reflexivity|].
  apply (proj1 (proj2 (proj2 (get_action_events_returns_a_prefix [["s"; "t"]]
           (λ _, [press_char "h"; press_char "s"; press_char "t"])
           {| id := 5; timestamp := PyInt 0; task_description := PyNone |})))).
  reflexivity.
Defined.

(** ** The [insert_*] functions *)

Lemma _insert_with_recording accepts table b recording event_timestamp event_data s :
  "timestamp" ∈ columns table →
  "recording_id" ∈ columns table →
  "recording_timestamp" ∈ columns table →
  (∀ key, is_Some (event_data !! key) → key ∈ columns table) →
  inserts_event_row accepts
    (_ ← _insert accepts (with_recording recording event_timestamp event_data)
                 table (Some b);
     mret tt)
    table b recording event_timestamp event_data s.
Proof.
  intros Hts Hid Hrts Hkeys.
  assert (size (fill_row (with_recording recording event_timestamp event_data)
                  table).2 = 0%nat) as Hempty.
  { apply fill_row_leftover_empty. intros key. unfold with_recording.
    rewrite !lookup_insert_is_Some.
    intros [<-|[_ [<-|[_ [<-|[_ Hsome]]]]]]; auto. }
  destruct (insert_and_drop_result accepts
              (with_recording recording event_timestamp event_data) table b s)
    as [[Hne _]|(_ & Hrun & Hdb & Hbuf & _)]; [done|].
  exists (fill_row (with_recording recording event_timestamp event_data)
            table).1.
  split; [exact Hrun|]. split; [exact Hdb|]. split; [exact Hbuf|].
  rewrite !fill_row_db_obj. rewrite !bool_decide_eq_true_2 by done.
  unfold with_recording.
  split; [by simplify_map_eq|]. split; [by simplify_map_eq|].
  split; [by simplify_map_eq|].
  intros key val H1 H2 H3 Hval. rewrite fill_row_db_obj.
  rewrite bool_decide_eq_true_2 by (apply Hkeys; by rewrite Hval).
  by simplify_map_eq.
Qed.

(** X9: when the table has the columns timestamp, recording_id and
    recording_timestamp and every key of [event_data] is a column,
    [insert_action_event], [insert_screenshot] and [insert_window_event]
    hand the session one row more than their buffer held, and that row holds
    the recording's id and timestamp and the event timestamp under these
    three keys, also when [event_data] has entries of its own for them.  The
    call returns with its buffer empty when the session accepts the insert
    and the commit, and raises with the row left in the buffer when it does
    not. *)
Theorem insert_event_overrides_recording_keys
    (accepts : Session) (table : Table) (recording : Recording)
    (event_timestamp : Any) (event_data : gmap string Any) (s : Store) :
  "timestamp" ∈ columns table →
  "recording_id" ∈ columns table →
  "recording_timestamp" ∈ columns table →
  (∀ key, is_Some (event_data !! key) → key ∈ columns table) →
  inserts_event_row accepts
    (insert_action_event accepts table recording event_timestamp event_data)
    table action_events recording event_timestamp event_data s
  ∧ inserts_event_row accepts
      (insert_screenshot accepts table recording event_timestamp event_data)
      table screenshots recording event_timestamp event_data s
  ∧ inserts_event_row accepts
      (insert_window_event accepts table recording event_timestamp event_data)
      table window_events recording event_timestamp event_data s.
Proof.
  intros. repeat split; by apply _insert_with_recording.
Qed.

Lemma insert_event_overrides_recording_keys_witness :
  inserts_event_row int64_session
    (insert_action_event int64_session
       {| tablename := "action_event";
          columns := ["id"; "name"; "timestamp"; "recording_id";
                      "recording_timestamp"] |}
       example_recording (PyInt 107)
       (<["recording_id" := PyInt 99]> {["name" := PyStr "press"]}))
    {| tablename := "action_event";
       columns := ["id"; "name"; "timestamp"; "recording_id";
                   "recording_timestamp"] |}
    action_events example_recording (PyInt 107)
    (<["recording_id" := PyInt 99]> {["name" := PyStr "press"]})
    (initial_store []).
Proof.
  apply (insert_event_overrides_recording_keys int64_session
           {| tablename := "action_event";
              columns := ["id"; "name"; "timestamp"; "recording_id";
                          "recording_timestamp"] |}).
  - apply (bool_decide_unpack _). vm_compute. exact I.
  - apply (bool_decide_unpack _). vm_compute. exact I.
  - apply (bool_decide_unpack _). vm_compute. exact I.
  - intros key. rewrite lookup_insert_is_Some, lookup_singleton_is_Some.
    intros [<-|[_ <-]]; apply (bool_decide_unpack _); vm_compute; exact I.
Defined.

(** Lookup of a literal key in a dict written out as a chain of inserts. *)
Ltac lookup_literal :=
  repeat first [rewrite lookup_insert_eq
               |rewrite lookup_insert_ne by discriminate];
  try rewrite lookup_empty.

(** X10: [insert_perf_stat] raises AssertionError exactly when the table
    lacks one of the five columns it fills, and then changes nothing.
    Otherwise it hands the session a row that has the five values under
    their keys and [None] in every other column, behind the rows its buffer
    held; it returns with the buffer empty when the session accepts the
    insert and the commit, and raises with the row left in the buffer when
    it does not. *)
Theorem insert_perf_stat_fills_five_columns
    (accepts : Session) (table : Table) (recording : Recording)
    (event_type : string) (start_time end_time : Any) (s : Store) :
  let needed := ["recording_timestamp"; "recording_id"; "event_type";
                 "start_time"; "end_time"] in
  let call := insert_perf_stat accepts table recording event_type
                start_time end_time in
  ((call s).2 = Raised AssertionError ↔ ¬ needed ⊆ columns table)
  ∧ ((call s).2 = Raised AssertionError → (call s).1 = s)
  ∧ (needed ⊆ columns table →
     ∃ row,
       (call s).2
       = (if committed accepts (db s) table (buffers s performance_stats ++ [row])
          then Returned tt else Raised SessionError)
       ∧ db (call s).1
         = db s ++ received accepts (db s) table
                     (buffers s performance_stats ++ [row])
       ∧ buffers (call s).1 performance_stats
         = (if committed accepts (db s) table
                 (buffers s performance_stats ++ [row])
            then [] else buffers s performance_stats ++ [row])
       ∧ row !! "recording_timestamp" = Some (timestamp recording)
       ∧ row !! "recording_id" = Some (PyInt (id recording))
       ∧ row !! "event_type" = Some (PyStr event_type)
       ∧ row !! "start_time" = Some start_time
       ∧ row !! "end_time" = Some end_time
       ∧ ∀ key, key ∈ columns table → key ∉ needed → row !! key = Some PyNone).
Proof.
  intros needed call. unfold call, insert_perf_stat.
  set (event_perf_stat := <["end_time":=end_time]> _).
  assert (∀ key, is_Some (event_perf_stat !! key) ↔ key ∈ needed) as Hkeys.
  { intros key. unfold event_perf_stat, needed.
    rewrite !lookup_insert_is_Some, lookup_empty, !elem_of_cons, elem_of_nil.
    split.
    - intros H. repeat (destruct H as [<-|[_ H]]; [auto 10|]).
      by apply is_Some_None in H.
    - intros [->|[->|[->|[->|[->|[]]]]]];
        repeat (first [by left | right; split; [done|]]). }
  assert (size (fill_row event_perf_stat table).2 = 0%nat
          ↔ needed ⊆ columns table) as Hfit.
  { rewrite fill_row_leftover_empty. split.
    - intros H key Hin. apply H. by apply Hkeys.
    - intros H key Hsome. apply H. by apply Hkeys. }
  destruct (insert_and_drop_result accepts event_perf_stat table
              performance_stats s)
    as [[Hne Hrun]|(He & Hrun & Hdb & Hbuf & _)].
  - rewrite Hrun. simpl. split; [|split; [done|]].
    + split; [intros _|done]. by rewrite <- Hfit.
    + intros Hsub. by apply Hfit in Hsub.
  - split; [|split].
    + rewrite Hrun. split; [by destruct (committed _ _ _ _)|].
      intros Hnot. destruct Hnot. by apply Hfit.
    + rewrite Hrun. by destruct (committed _ _ _ _).
    + intros Hsub. exists (fill_row event_perf_stat table).1.
      split; [exact Hrun|]. split; [exact Hdb|]. split; [exact Hbuf|].
      rewrite !fill_row_db_obj.
      rewrite !bool_decide_eq_true_2
        by (apply Hsub; unfold needed; rewrite !elem_of_cons; auto 10).
      repeat (split; [unfold event_perf_stat; by lookup_literal|]).
      intros key Hcol Hother. rewrite fill_row_db_obj.
      rewrite bool_decide_eq_true_2 by done.
      destruct (event_perf_stat !! key) eqn:Hlook; [|done].
      destruct Hother. apply Hkeys. by rewrite Hlook.
Qed.

Lemma insert_perf_stat_fills_five_columns_witness :
  let table :=
    {| tablename := "performance_stat";
       columns := ["id"; "recording_timestamp"; "recording_id"; "event_type";
                   "start_time"; "end_time"; "window_id"] |} in
  let call := insert_perf_stat int64_session table example_recording "action"
                (PyInt 101) (PyInt 102) in
  let s := initial_store [] in
  ∃ row,
    (call s).2
    = (if committed int64_session (db s) table
            (buffers s performance_stats ++ [row])
       then Returned tt else Raised SessionError)
    ∧ db (call s).1
      = db s ++ received int64_session (db s) table
                  (buffers s performance_stats ++ [row])
    ∧ buffers (call s).1 performance_stats
      = (if committed int64_session (db s) table
              (buffers s performance_stats ++ [row])
         then [] else buffers s performance_stats ++ [row])
    ∧ row !! "recording_timestamp" = Some (timestamp example_recording)
    ∧ row !! "recording_id" = Some (PyInt (id example_recording))
    ∧ row !! "event_type" = Some (PyStr "action")
    ∧ row !! "start_time" = Some (PyInt 101)
    ∧ row !! "end_time" = Some (PyInt 102)
    ∧ ∀ key,
        key ∈ columns table →
        key ∉ ["recording_timestamp"; "recording_id"; "event_type";
               "start_time"; "end_time"] →
        row !! key = Some PyNone.
Proof.
  apply (proj2 (proj2 (insert_perf_stat_fills_five_columns int64_session
    {| tablename := "performance_stat";
       columns := ["id"; "recording_timestamp"; "recording_id"; "event_type";
                   "start_time"; "end_time"; "window_id"] |}
    example_recording "action" (PyInt 101) (PyInt 102) (initial_store [])))).
  intros key Hkey. simpl.
  repeat (apply elem_of_cons in Hkey as [->|Hkey];
          [apply (bool_decide_unpack _); vm_compute; exact I|]).
  by apply elem_of_nil in Hkey.
Defined.

(** X11: [insert_memory_stat] raises AssertionError exactly when the table
    lacks one of the four columns it fills, and then changes nothing.
    Otherwise it hands the session a row that has the four values under
    their keys and [None] in every other column, behind the rows its buffer
    held; it returns with the buffer empty when the session accepts the
    insert and the commit, and raises with the row left in the buffer when
    it does not. *)
Theorem insert_memory_stat_fills_four_columns
    (accepts : Session) (table : Table) (recording : Recording)
    (memory_usage_bytes : Z) (timestamp_ : Any) (s : Store) :
  let needed := ["recording_timestamp"; "recording_id"; "memory_usage_bytes";
                 "timestamp"] in
  let call := insert_memory_stat accepts table recording memory_usage_bytes
                timestamp_ in
  ((call s).2 = Raised AssertionError ↔ ¬ needed ⊆ columns table)
  ∧ ((call s).2 = Raised AssertionError → (call s).1 = s)
  ∧ (needed ⊆ columns table →
     ∃ row,
       (call s).2
       = (if committed accepts (db s) table (buffers s memory_stats ++ [row])
          then Returned tt else Raised SessionError)
       ∧ db (call s).1
         = db s ++ received accepts (db s) table (buffers s memory_stats ++ [row])
       ∧ buffers (call s).1 memory_stats
         = (if committed accepts (db s) table (buffers s memory_stats ++ [row])
            then [] else buffers s memory_stats ++ [row])
       ∧ row !! "recording_timestamp" = Some (timestamp recording)
       ∧ row !! "recording_id" = Some (PyInt (id recording))
       ∧ row !! "memory_usage_bytes" = Some (PyInt memory_usage_bytes)
       ∧ row !! "timestamp" = Some timestamp_
       ∧ ∀ key, key ∈ columns table → key ∉ needed → row !! key = Some PyNone).
Proof.
  intros needed call. unfold call, insert_memory_stat.
  set (memory_stat := <["timestamp":=timestamp_]> _).
  assert (∀ key, is_Some (memory_stat !! key) ↔ key ∈ needed) as Hkeys.
  { intros key. unfold memory_stat, needed.
    rewrite !lookup_insert_is_Some, lookup_empty, !elem_of_cons, elem_of_nil.
    split.
    - intros H. repeat (destruct H as [<-|[_ H]]; [auto 10|]).
      by apply is_Some_None in H.
    - intros [->|[->|[->|[->|[]]]]];
        repeat (first [by left | right; split; [done|]]). }
  assert (size (fill_row memory_stat table).2 = 0%nat
          ↔ needed ⊆ columns table) as Hfit.
  { rewrite fill_row_leftover_empty. split.
    - intros H key Hin. apply H. by apply Hkeys.
    - intros H key Hsome. apply H. by apply Hkeys. }
  destruct (insert_and_drop_result accepts memory_stat table memory_stats s)
    as [[Hne Hrun]|(He & Hrun & Hdb & Hbuf & _)].
  - rewrite Hrun. simpl. split; [|split; [done|]].
    + split; [intros _|done]. by rewrite <- Hfit.
    + intros Hsub. by apply Hfit in Hsub.
  - split; [|split].
    + rewrite Hrun. split; [by destruct (committed _ _ _ _)|].
      intros Hnot. destruct Hnot. by apply Hfit.
    + rewrite Hrun. by destruct (committed _ _ _ _).
    + intros Hsub. exists (fill_row memory_stat table).1.
      split; [exact Hrun|]. split; [exact Hdb|]. split; [exact Hbuf|].
      rewrite !fill_row_db_obj.
      rewrite !bool_decide_eq_true_2
        by (apply Hsub; unfold needed; rewrite !elem_of_cons; auto 10).
      repeat (split; [unfold memory_stat; by lookup_literal|]).
      intros key Hcol Hother. rewrite fill_row_db_obj.
      rewrite bool_decide_eq_true_2 by done.
      destruct (memory_stat !! key) eqn:Hlook; [|done].
      destruct Hother. apply Hkeys. by rewrite Hlook.
Qed.

Lemma insert_memory_stat_fills_four_columns_witness :
  let call := insert_memory_stat int64_session MemoryStat_example
                example_recording (2 ^ 63) (PyInt 101) in
  let s := initial_store [] in
  ∃ row,
    (call s).2
    = (if committed int64_session (db s) MemoryStat_example
            (buffers s memory_stats ++ [row])
       then Returned tt else Raised SessionError)
    ∧ db (call s).1
      = db s ++ received int64_session (db s) MemoryStat_example
                  (buffers s memory_stats ++ [row])
    ∧ buffers (call s).1 memory_stats
      = (if committed int64_session (db s) MemoryStat_example
              (buffers s memory_stats ++ [row])
         then [] else buffers s memory_stats ++ [row])
    ∧ row !! "recording_timestamp" = Some (timestamp example_recording)
    ∧ row !! "recording_id" = Some (PyInt (id example_recording))
    ∧ row !! "memory_usage_bytes" = Some (PyInt (2 ^ 63))
    ∧ row !! "timestamp" = Some (PyInt 101)
    ∧ ∀ key,
        key ∈ columns MemoryStat_example →
        key ∉ ["recording_timestamp"; "recording_id"; "memory_usage_bytes";
               "timestamp"] →
        row !! key = Some PyNone.
Proof.
  apply (proj2 (proj2 (insert_memory_stat_fills_four_columns int64_session
    MemoryStat_example example_recording (2 ^ 63) (PyInt 101)
    (initial_store [])))).
  intros key Hkey. simpl.
  repeat (apply elem_of_cons in Hkey as [->|Hkey];
          [apply (bool_decide_unpack _); vm_compute; exact I|]).
  by apply elem_of_nil in Hkey.
Defined.

(** ** The loop of [_insert] over the keys of the row *)

(** X12: after the loop of [_insert] the caller's [event_data] holds exactly
    its entries whose key is not a column of the table (what the assertion
    reports when it fails), the row has exactly the columns as its keys,
    and an entry of [event_data] is in one of the two and never in both. *)
Theorem fill_row_splits_event_data
    (event_data : gmap string Any) (table : Table) :
  (fill_row event_data table).2
  = filter (λ kv, kv.1 ∉ columns table) event_data
  ∧ (∀ key, is_Some ((fill_row event_data table).1 !! key)
            ↔ key ∈ columns table)
  ∧ (∀ key val, event_data !! key = Some val →
       ((fill_row event_data table).1 !! key = Some val
        ∧ (fill_row event_data table).2 !! key = None)
       ∨ ((fill_row event_data table).1 !! key = None
          ∧ (fill_row event_data table).2 !! key = Some val)).
Proof.
  split; [|split].
  - apply map_eq. intros key. rewrite fill_row_leftover.
    destruct (event_data !! key) as [val|] eqn:Hval.
    + case_bool_decide as Hin.
      * symmetry. apply map_lookup_filter_None. right.
        intros val' Hval' Hnot. by apply Hnot.
      * symmetry. by apply map_lookup_filter_Some.
    + symmetry. destruct (bool_decide _);
        apply map_lookup_filter_None; by left.
  - intros key. rewrite fill_row_db_obj.
    case_bool_decide; [done|]. split; [by intros [? ?]|done].
  - intros key val Hval. rewrite fill_row_db_obj, fill_row_leftover, Hval.
    case_bool_decide; [by left|by right].
Qed.

Lemma fill_row_splits_event_data_witness :
  ((fill_row (<["colour" := PyStr "red"]> {["name" := PyStr "press"]})
      {| tablename := "action_event"; columns := ["id"; "name"] |}).1
     !! "colour" = Some (PyStr "red")
   ∧ (fill_row (<["colour" := PyStr "red"]> {["name" := PyStr "press"]})
        {| tablename := "action_event"; columns := ["id"; "name"] |}).2
       !! "colour" = None)
  ∨ ((fill_row (<["colour" := PyStr "red"]> {["name" := PyStr "press"]})
        {| tablename := "action_event"; columns := ["id"; "name"] |}).1
       !! "colour" = None
     ∧ (fill_row (<["colour" := PyStr "red"]> {["name" := PyStr "press"]})
          {| tablename := "action_event"; columns := ["id"; "name"] |}).2
         !! "colour" = Some (PyStr "red")).
Proof.
  apply (proj2 (proj2 (fill_row_splits_event_data
           (<["colour" := PyStr "red"]> {["name" := PyStr "press"]})
           {| tablename := "action_event"; columns := ["id"; "name"] |}))).
  reflexivity.
Defined.

(** ** [scrub_recording]: what it changes *)

Lemma assign_task_description_keys recording_id value rows :
  (λ r, (id r, timestamp r)) <$> assign_task_description recording_id value rows
  = (λ r, (id r, timestamp r)) <$> rows.
Proof.
  induction rows as [|r rows IH]; [done|]. cbn [assign_task_description].
  case_bool_decide; rewrite !fmap_cons; [done|]. by rewrite IH.
Qed.

Lemma assign_task_description_elem_of recording_id value rows r :
  r ∈ assign_task_description recording_id value rows →
  r ∈ rows ∨ (id r = recording_id ∧ task_description r = value).
Proof.
  induction rows as [|r0 rows IH]; simpl; [by left|].
  case_bool_decide as Hid.
  - intros [->|Hin]%elem_of_cons.
    + right. by simpl.
    + left. by apply list_elem_of_further.
  - intros [->|Hin]%elem_of_cons.
    + left. apply list_elem_of_here.
    + destruct (IH Hin) as [?|?]; [left|by right].
      by apply list_elem_of_further.
Qed.

(** X13: whatever the configuration, the argument and the helper functions,
    [crud.scrub_recording] leaves the recordings in their order with their
    ids and timestamps, leaves the five buffers alone, and every recording
    it leaves is one that was there or has id 2. *)
Theorem scrub_recording_keeps_the_recordings
    (SCRUB_ENABLED : bool) (EventRow : Type) (scrub_text : Any → Any)
    (get_events : Recording → list EventRow)
    (rows2dicts : list EventRow → list (gmap string Any))
    (scrub_list_dicts : list (gmap string Any) → list (gmap string Any))
    (str_argument : scrub_argument → string)
    (str_dict : gmap string Any → string)
    (argument : scrub_argument) (s : Store) :
  let after := (crud.scrub_recording SCRUB_ENABLED EventRow scrub_text
                  get_events rows2dicts scrub_list_dicts str_argument
                  str_dict argument s).1 in
  (λ r, (id r, timestamp r)) <$> recordings after
  = (λ r, (id r, timestamp r)) <$> recordings s
  ∧ buffers after = buffers s
  ∧ ∀ r, r ∈ recordings after → r ∈ recordings s ∨ id r = 2.
Proof.
  unfold crud.scrub_recording, get_recording_by_id, mbind, M_bind, modify,
    raise. simpl.
  destruct SCRUB_ENABLED; simpl; [|by auto].
  destruct (List.find _ (recordings s)) as [recording|] eqn:Hfind;
    simpl; [|by auto].
  apply find_by_id_Some in Hfind as Hid.
  destruct (scrub_list_dicts _) as [|first_dict dicts]; simpl;
    (split; [apply assign_task_description_keys|]); (split; [done|]);
    intros r [?|[? _]]%assign_task_description_elem_of; auto; right; congruence.
Qed.



(** ** The route [/scrub/{recording_id}] *)



(** ** Migrations: the two revisions side by side *)

Lemma add_column_returns table column schema cols :
  schema !! table = Some cols →
  op.column_name column ∉ op.column_name <$> cols →
  op.add_column table column schema
  = (<[table := cols ++ [column]]> schema, Returned tt).
Proof.
  intros Htable Hfresh. unfold op.add_column. rewrite Htable.
  by rewrite bool_decide_eq_false_2 by done.
Qed.

Lemma drop_column_returns table column schema cols :
  schema !! table = Some (cols ++ [column]) →
  op.column_name column ∉ op.column_name <$> cols →
  op.drop_column table (op.column_name column) schema
  = (<[table := cols]> schema, Returned tt).
Proof.
  intros Htable Hfresh. unfold op.drop_column. rewrite Htable.
  rewrite bool_decide_eq_true_2.
  - by rewrite filter_other_names by done.
  - rewrite fmap_app. apply elem_of_app. right. apply list_elem_of_here.
Qed.

(** X16: on a schema that has the tables [window_event] and [recording]
    without the columns [state] and [config], the two upgrades can be
    applied in either order with the same result, and after both the
    downgrade of one revision removes its own column only: what is left is
    the schema with the other upgrade alone. *)
Theorem migrations_are_independent
    (schema : gmap string (list op.Column))
    (window_event_cols recording_cols : list op.Column) :
  schema !! "window_event" = Some window_event_cols →
  schema !! "recording" = Some recording_cols →
  "state" ∉ op.column_name <$> window_event_cols →
  "config" ∉ op.column_name <$> recording_cols →
  (_ ← rev_57d78d23087a.upgrade; rev_8495f5471e23.upgrade) schema
  = (_ ← rev_8495f5471e23.upgrade; rev_57d78d23087a.upgrade) schema
  ∧ ((_ ← rev_57d78d23087a.upgrade; rev_8495f5471e23.upgrade) schema).2
    = Returned tt
  ∧ (_ ← rev_57d78d23087a.upgrade; _ ← rev_8495f5471e23.upgrade;
     rev_57d78d23087a.downgrade) schema
    = rev_8495f5471e23.upgrade schema
  ∧ (_ ← rev_57d78d23087a.upgrade; _ ← rev_8495f5471e23.upgrade;
     rev_8495f5471e23.downgrade) schema
    = rev_57d78d23087a.upgrade schema.
Proof.
  intros Hwe Hrec Hstate Hconfig.
  unfold rev_57d78d23087a.upgrade, rev_8495f5471e23.upgrade,
    rev_57d78d23087a.downgrade, rev_8495f5471e23.downgrade.
  set (state := {| op.column_name := "state"; op.column_type := op.JSON;
                   op.nullable := true |}).
  set (config := {| op.column_name := "config"; op.column_type := op.JSON;
                    op.nullable := true |}).
  change "state" with (op.column_name state).
  change "config" with (op.column_name config).
  set (with_state := <["window_event" := window_event_cols ++ [state]]> schema).
  set (with_config := <["recording" := recording_cols ++ [config]]> schema).
  set (with_both := <["recording" := recording_cols ++ [config]]> with_state).
  assert (op.add_column "window_event" state schema
          = (with_state, Returned tt)) as H1 by by apply add_column_returns.
  assert (op.add_column "recording" config schema
          = (with_config, Returned tt)) as H2 by by apply add_column_returns.
  assert (op.add_column "recording" config with_state
          = (with_both, Returned tt)) as H12.
  { apply add_column_returns; [|done].
    unfold with_state. by rewrite lookup_insert_ne. }
  assert (op.add_column "window_event" state with_config
          = (with_both, Returned tt)) as H21.
  { unfold with_both, with_state.
    rewrite (insert_insert_ne schema "recording" "window_event") by done.
    apply add_column_returns; [|done].
    unfold with_config. by rewrite lookup_insert_ne. }
  assert (op.drop_column "window_event" (op.column_name state) with_both
          = (with_config, Returned tt)) as Hd1.
  { rewrite (drop_column_returns _ _ _ window_event_cols); [|..|done].
    - f_equal. unfold with_config, with_both, with_state.
      rewrite (insert_insert_ne _ "window_event" "recording") by done.
      rewrite insert_insert_eq. by rewrite (insert_id schema "window_event").
    - unfold with_both, with_state.
      rewrite lookup_insert_ne by done. by rewrite lookup_insert_eq. }
  assert (op.drop_column "recording" (op.column_name config) with_both
          = (with_state, Returned tt)) as Hd2.
  { rewrite (drop_column_returns _ _ _ recording_cols); [|..|done].
    - f_equal. unfold with_both. rewrite insert_insert_eq.
      apply insert_id. unfold with_state. by rewrite lookup_insert_ne.
    - unfold with_both. by rewrite lookup_insert_eq. }
  unfold mbind, M_bind. rewrite H1, H2, H12, H21, Hd1, Hd2. done.
Qed.

Lemma migrations_are_independent_witness :
  (_ ← rev_57d78d23087a.upgrade; _ ← rev_8495f5471e23.upgrade;
   rev_57d78d23087a.downgrade) example_schema
  = rev_8495f5471e23.upgrade example_schema.
Proof.
  destruct (migrations_are_independent example_schema
    [{| op.column_name := "id"; op.column_type := op.Integer; op.nullable := false |};
     {| op.column_name := "title"; op.column_type := op.String; op.nullable := true |}]
    [{| op.column_name := "id"; op.column_type := op.Integer; op.nullable := false |};
     {| op.column_name := "timestamp"; op.column_type := op.Float; op.nullable := true |}])
    as (_ & _ & Hdown & _).
  - reflexivity.
  - reflexivity.
  - apply (bool_decide_unpack _). vm_compute. exact I.
  - apply (bool_decide_unpack _). vm_compute. exact I.
  - exact Hdown.
Defined.

(** ** [post_process_events] *)

Lemma dict_of_snoc `{Countable K} {V} (items : list (K * V)) (k : K) (v : V) :
  dict_of (items ++ [(k, v)]) = <[k := v]> (dict_of items).
Proof. unfold dict_of. by rewrite foldl_app. Qed.

Lemma dict_of_lookup_None `{Countable K} {V} (items : list (K * V)) (k : K) :
  dict_of items !! k = None ↔ k ∉ items.*1.
Proof.
  induction items as [|[k' v'] items IH] using rev_ind.
  - split; [intros _; apply not_elem_of_nil|done].
  - rewrite dict_of_snoc, fmap_app, not_elem_of_app. simpl.
    rewrite lookup_insert_None, IH, not_elem_of_cons.
    split; [intros [? ?]|intros [? [? _]]]; repeat split; auto.
    apply not_elem_of_nil.
Qed.

(** The value under a key is the one of the last item with that key. *)
Lemma dict_of_lookup_Some `{Countable K} {V} (items : list (K * V)) (k : K) (v : V) :
  dict_of items !! k = Some v
  ↔ ∃ before after, items = before ++ (k, v) :: after ∧ k ∉ after.*1.
Proof.
  induction items as [|[k' v'] items IH] using rev_ind.
  - split; [done|]. intros (before & after & Heq & _).
    by destruct before.
  - rewrite dict_of_snoc. destruct (decide (k' = k)) as [->|Hne].
    + rewrite lookup_insert_eq. split.
      * intros [= ->]. exists items, []. split; [done|apply not_elem_of_nil].
      * intros (before & after & Heq & Hnot).
        destruct after as [|item after _] using rev_ind.
        -- apply app_inj_tail in Heq as [_ [= ->]]. done.
        -- replace (before ++ (k, v) :: after ++ [item])
             with ((before ++ (k, v) :: after) ++ [item]) in Heq
             by (by rewrite <- app_assoc).
           apply app_inj_tail in Heq as [_ <-].
           destruct Hnot. rewrite fmap_app. apply elem_of_app. right.
           apply list_elem_of_here.
    + rewrite lookup_insert_ne by done. rewrite IH. split.
      * intros (before & after & -> & Hnot).
        exists before, (after ++ [(k', v')]).
        split; [by rewrite <- app_assoc|].
        rewrite fmap_app, not_elem_of_app. split; [done|].
        simpl. rewrite not_elem_of_cons. split; [done|apply not_elem_of_nil].
      * intros (before & after & Heq & Hnot).
        destruct after as [|item after _] using rev_ind.
        -- apply app_inj_tail in Heq as [_ [= ? ?]]. done.
        -- replace (before ++ (k, v) :: after ++ [item])
             with ((before ++ (k, v) :: after) ++ [item]) in Heq
             by (by rewrite <- app_assoc).
           apply app_inj_tail in Heq as [-> <-].
           exists before, after. split; [done|].
           rewrite fmap_app, not_elem_of_app in Hnot. by destruct Hnot.
Qed.

Lemma dict_of_rows_None `{Countable K} {A V} (key : A → K) (val : A → V)
    (rows : list A) (k : K) :
  dict_of ((λ row, (key row, val row)) <$> rows) !! k = None
  ↔ ∀ row, row ∈ rows → key row ≠ k.
Proof.
  rewrite dict_of_lookup_None, <- list_fmap_compose. split.
  - intros Hnot row Hin Hkey. apply Hnot.
    apply list_elem_of_fmap. exists row. by split.
  - intros Hall (row & Hkey & Hin)%list_elem_of_fmap. by apply (Hall row).
Qed.

Lemma dict_of_rows_Some `{Countable K} {A V} (key : A → K) (val : A → V)
    (rows : list A) (k : K) (v : V) :
  dict_of ((λ row, (key row, val row)) <$> rows) !! k = Some v
  ↔ ∃ before row after,
      rows = before ++ row :: after ∧ key row = k ∧ val row = v
      ∧ ∀ row', row' ∈ after → key row' ≠ k.
Proof.
  rewrite dict_of_lookup_Some. split.
  - intros (before & after & Heq & Hnot).
    apply fmap_app_inv in Heq as (before' & rest & -> & Hrest & ->).
    symmetry in Hrest.
    apply fmap_cons_inv in Hrest as (row & after' & Hrow & -> & ->).
    injection Hrow as Hk Hv.
    exists before', row, after'. repeat split; try done.
    intros row' Hin Hkey. apply Hnot. rewrite <- list_fmap_compose.
    apply list_elem_of_fmap. exists row'. by split.
  - intros (before & row & after & -> & Hk & Hv & Hnot).
    exists ((λ row, (key row, val row)) <$> before),
      ((λ row, (key row, val row)) <$> after).
    split; [by rewrite fmap_app, fmap_cons, Hk, Hv|].
    rewrite <- list_fmap_compose.
    intros (row' & Hkey & Hin)%list_elem_of_fmap. by apply (Hnot row').
Qed.

(** X17: [post_process_events] keeps the action events in number and
    order and their two timestamps as they were.  Whatever ids an event had
    before, afterwards its [screenshot_id] is [None] exactly when no
    screenshot of the recording has the event's screenshot timestamp, and
    otherwise it is the id of a screenshot with that timestamp; likewise
    for [window_event_id] and the window events. *)
Theorem post_process_events_links_by_timestamp `{Countable Timestamp}
    (screenshots : list (Screenshot.t Timestamp))
    (action_events : list (ActionEventLinks Timestamp))
    (window_events : list (WindowEvent.t Timestamp)) :
  length (post_process_events screenshots action_events window_events)
  = length action_events
  ∧ ∀ i after,
      post_process_events screenshots action_events window_events !! i
      = Some after →
      ∃ before,
        action_events !! i = Some before
        ∧ screenshot_timestamp after = screenshot_timestamp before
        ∧ window_event_timestamp after = window_event_timestamp before
        ∧ (screenshot_id after = None
           ↔ ∀ s, s ∈ screenshots →
                  Screenshot.timestamp s ≠ screenshot_timestamp before)
        ∧ (∀ n, screenshot_id after = Some n →
                ∃ s, s ∈ screenshots
                     ∧ Screenshot.timestamp s = screenshot_timestamp before
                     ∧ Screenshot.id s = n)
        ∧ (window_event_id after = None
           ↔ ∀ w, w ∈ window_events →
                  WindowEvent.timestamp w ≠ window_event_timestamp before)
        ∧ (∀ n, window_event_id after = Some n →
                ∃ w, w ∈ window_events
                     ∧ WindowEvent.timestamp w = window_event_timestamp before
                     ∧ WindowEvent.id w = n).
Proof.
  unfold post_process_events. split; [by rewrite length_fmap|].
  intros i after Hafter. rewrite list_lookup_fmap in Hafter.
  destruct (action_events !! i) as [before|]; [|done].
  injection Hafter as <-. exists before. simpl.
  split; [done|]. split; [done|]. split; [done|].
  split; [apply dict_of_rows_None|]. split.
  - intros n (b & s & a & -> & Hts & Hid & _)%dict_of_rows_Some.
    exists s. split; [|done]. apply elem_of_app. right. apply list_elem_of_here.
  - split; [apply dict_of_rows_None|].
    intros n (b & w & a & -> & Hts & Hid & _)%dict_of_rows_Some.
    exists w. split; [|done]. apply elem_of_app. right. apply list_elem_of_here.
Qed.

Lemma post_process_events_links_by_timestamp_witness :
  ∃ before,
    [{| screenshot_timestamp := 10; window_event_timestamp := 7;
        screenshot_id := Some 99; window_event_id := None |}] !! 0%nat
    = Some before
    ∧ screenshot_timestamp
        {| screenshot_timestamp := 10; window_event_timestamp := 7;
           screenshot_id := Some 4; window_event_id := None |}
      = screenshot_timestamp before
    ∧ window_event_timestamp
        {| screenshot_timestamp := 10; window_event_timestamp := 7;
           screenshot_id := Some 4; window_event_id := None |}
      = window_event_timestamp before
    ∧ (screenshot_id
         {| screenshot_timestamp := 10; window_event_timestamp := 7;
            screenshot_id := Some 4; window_event_id := None |} = None
       ↔ ∀ s, s ∈ [{| Screenshot.id := 4; Screenshot.timestamp := 10 |}] →
              Screenshot.timestamp s ≠ screenshot_timestamp before)
    ∧ (∀ n, screenshot_id
              {| screenshot_timestamp := 10; window_event_timestamp := 7;
                 screenshot_id := Some 4; window_event_id := None |} = Some n →
            ∃ s, s ∈ [{| Screenshot.id := 4; Screenshot.timestamp := 10 |}]
                 ∧ Screenshot.timestamp s = screenshot_timestamp before
                 ∧ Screenshot.id s = n)
    ∧ (window_event_id
         {| screenshot_timestamp := 10; window_event_timestamp := 7;
            screenshot_id := Some 4; window_event_id := None |} = None
       ↔ ∀ w, w ∈ [{| WindowEvent.id := 1; WindowEvent.timestamp := 8 |}] →
              WindowEvent.timestamp w ≠ window_event_timestamp before)
    ∧ (∀ n, window_event_id
              {| screenshot_timestamp := 10; window_event_timestamp := 7;
                 screenshot_id := Some 4; window_event_id := None |} = Some n →
            ∃ w, w ∈ [{| WindowEvent.id := 1; WindowEvent.timestamp := 8 |}]
                 ∧ WindowEvent.timestamp w = window_event_timestamp before
                 ∧ WindowEvent.id w = n).
Proof.
  apply (proj2 (post_process_events_links_by_timestamp (Timestamp := Z)
           [{| Screenshot.id := 4; Screenshot.timestamp := 10 |}]
           [{| screenshot_timestamp := 10; window_event_timestamp := 7;
               screenshot_id := Some 99; window_event_id := None |}]
           [{| WindowEvent.id := 1; WindowEvent.timestamp := 8 |}]) 0%nat).
  vm_compute. reflexivity.
Defined.

(** X18: when several screenshots have the same timestamp, the action
    events with that screenshot timestamp get the id of the last of them in
    the order of the query; likewise for the window events. *)
Theorem post_process_events_last_row_wins `{Countable Timestamp}
    (screenshots : list (Screenshot.t Timestamp))
    (action_events : list (ActionEventLinks Timestamp))
    (window_events : list (WindowEvent.t Timestamp))
    (i : nat) (after : ActionEventLinks Timestamp) :
  post_process_events screenshots action_events window_events !! i
  = Some after →
  (∀ earlier s later,
     screenshots = earlier ++ s :: later →
     Screenshot.timestamp s = screenshot_timestamp after →
     (∀ s', s' ∈ later → Screenshot.timestamp s' ≠ Screenshot.timestamp s) →
     screenshot_id after = Some (Screenshot.id s))
  ∧ (∀ earlier w later,
       window_events = earlier ++ w :: later →
       WindowEvent.timestamp w = window_event_timestamp after →
       (∀ w', w' ∈ later → WindowEvent.timestamp w' ≠ WindowEvent.timestamp w) →
       window_event_id after = Some (WindowEvent.id w)).
Proof.
  unfold post_process_events. intros Hafter.
  rewrite list_lookup_fmap in Hafter.
  destruct (action_events !! i) as [before|]; [|done].
  injection Hafter as <-. simpl. split.
  - intros earlier s later -> Hts Hlast. apply dict_of_rows_Some.
    exists earlier, s, later. repeat split; try done.
    intros s' Hin. rewrite <- Hts. by apply Hlast.
  - intros earlier w later -> Hts Hlast. apply dict_of_rows_Some.
    exists earlier, w, later. repeat split; try done.
    intros w' Hin. rewrite <- Hts. by apply Hlast.
Qed.

Lemma post_process_events_last_row_wins_witness :
  screenshot_id
    {| screenshot_timestamp := 10; window_event_timestamp := 7;
       screenshot_id := Some 5; window_event_id := None |}
  = Some (Screenshot.id {| Screenshot.id := 5; Screenshot.timestamp := 10 |}).
Proof.
  assert (post_process_events (Timestamp := Z)
            [{| Screenshot.id := 4; Screenshot.timestamp := 10 |};
             {| Screenshot.id := 5; Screenshot.timestamp := 10 |}]
            [{| screenshot_timestamp := 10; window_event_timestamp := 7;
                screenshot_id := None; window_event_id := Some 3 |}]
            [] !! 0%nat
          = Some {| screenshot_timestamp := 10; window_event_timestamp := 7;
                    screenshot_id := Some 5; window_event_id := None |})
    as Hrun by (vm_compute; reflexivity).
  apply (proj1 (post_process_events_last_row_wins _ _ _ _ _ Hrun)
           [{| Screenshot.id := 4; Screenshot.timestamp := 10 |}]
           {| Screenshot.id := 5; Screenshot.timestamp := 10 |} []).
  - reflexivity.
  - reflexivity.
  - intros s' Hin. by apply elem_of_nil in Hin.
Defined.

(** ** [save_screenshot_diff] *)

Lemma truthy_is_Some x : truthy x = true → is_Some x.
Proof. by destruct x as [[|]|]. Qed.

Lemma diff_filled_refl screenshot :
  prev screenshot = None ∨ (truthy (png_diff_data screenshot) = true
                            ∧ truthy (png_diff_mask_data screenshot) = true) →
  diff_filled screenshot screenshot.
Proof.
  intros Hcase. unfold diff_filled.
  split; [done|]. split; [done|]. split; [done|]. split; [done|].
  intros Hprev. destruct Hcase as [?|[Hd Hm]]; [done|].
  split; by apply truthy_is_Some.
Qed.

(** The loop returns what was behind it followed by the screenshots before
    it, each filled where it lacked a diff, and [data_updated] is set when
    one of them did. *)
Lemma save_loop_spec diff_binary mask_binary processed todo data_updated :
  ∃ todo',
    save_loop diff_binary mask_binary processed todo data_updated
    = (processed ++ todo', data_updated || existsb lacks_diff todo)
    ∧ Forall2 diff_filled todo todo'.
Proof.
  revert processed data_updated.
  induction todo as [|screenshot rest IH]; intros processed data_updated.
  - exists []. simpl. by rewrite app_nil_r, orb_false_r.
  - cbn [save_loop existsb]. unfold lacks_diff at 1.
    destruct (prev screenshot) as [p|] eqn:Hprev.
    + rewrite bool_decide_eq_true_2 by done.
      destruct (truthy (png_diff_data screenshot)) eqn:Hd;
        destruct (truthy (png_diff_mask_data screenshot)) eqn:Hm;
        cbn [png_diff_mask_data set_png_diff_data]; rewrite ?Hm;
        match goal with
        | |- context [save_loop _ _ (processed ++ [?s]) rest ?u] =>
            destruct (IH (processed ++ [s]) u) as (todo' & -> & Hall);
            exists (s :: todo')
        end;
        (split;
         [rewrite <- app_assoc; simpl;
          by rewrite ?orb_true_r, ?orb_true_l, ?orb_false_l|]);
        (apply Forall2_cons; split; [|done]);
        repeat split; simpl; try done; try congruence;
        eauto using truthy_is_Some.
    + rewrite bool_decide_eq_false_2 by (intros H; by apply H).
      destruct (IH (processed ++ [screenshot]) data_updated)
        as (todo' & -> & Hall).
      exists (screenshot :: todo'). split.
      * by rewrite <- app_assoc.
      * apply Forall2_cons. split; [|done]. apply diff_filled_refl. by left.
Qed.

(** X19: [save_screenshot_diff] returns the screenshots in their number and
    order.  It leaves a screenshot without [prev] as it is, never replaces a
    diff or a mask that is there (not [None], not empty), and leaves every
    screenshot that has a [prev] with both; and it writes to the database
    exactly when some screenshot with a [prev] lacked one of the two. *)
Theorem save_screenshot_diff_fills_what_is_missing
    (diff_binary mask_binary : list ScreenshotDiff → nat → list Byte.byte)
    (screenshots : list ScreenshotDiff) :
  Forall2 diff_filled screenshots
    (save_screenshot_diff diff_binary mask_binary screenshots).1
  ∧ (save_screenshot_diff diff_binary mask_binary screenshots).2
    = existsb lacks_diff screenshots.
Proof.
  unfold save_screenshot_diff.
  destruct (save_loop_spec diff_binary mask_binary [] screenshots false)
    as (todo' & -> & Hall).
  done.
Qed.

Lemma save_loop_nothing_to_do diff_binary mask_binary processed todo data_updated :
  Forall (λ s, lacks_diff s = false) todo →
  save_loop diff_binary mask_binary processed todo data_updated
  = (processed ++ todo, data_updated).
Proof.
  revert processed. induction todo as [|screenshot rest IH]; intros processed Hall.
  - simpl. by rewrite app_nil_r.
  - apply Forall_cons in Hall as [Hs Hall]. cbn [save_loop].
    unfold lacks_diff in Hs.
    destruct (prev screenshot) as [p|].
    + rewrite bool_decide_eq_true_2 in Hs by done. simpl in Hs.
      apply negb_false_iff, andb_true_iff in Hs as [-> ->].
      rewrite IH by done. by rewrite <- app_assoc.
    + rewrite IH by done. by rewrite <- app_assoc.
Qed.

Lemma save_loop_leaves_nothing_to_do
    diff_binary mask_binary processed todo data_updated :
  (∀ screenshots i, diff_binary screenshots i ≠ []) →
  (∀ screenshots i, mask_binary screenshots i ≠ []) →
  ∃ todo',
    save_loop diff_binary mask_binary processed todo data_updated
    = (processed ++ todo', data_updated || existsb lacks_diff todo)
    ∧ Forall (λ s, lacks_diff s = false) todo'.
Proof.
  intros Hdiff Hmask. revert processed data_updated.
  induction todo as [|screenshot rest IH]; intros processed data_updated.
  - exists []. simpl. rewrite app_nil_r, orb_false_r. by split.
  - cbn [save_loop existsb]. unfold lacks_diff at 1.
    destruct (prev screenshot) as [p|] eqn:Hprev.
    + rewrite bool_decide_eq_true_2 by done.
      destruct (truthy (png_diff_data screenshot)) eqn:Hd;
        destruct (truthy (png_diff_mask_data screenshot)) eqn:Hm;
        cbn [png_diff_mask_data set_png_diff_data]; rewrite ?Hm;
        match goal with
        | |- context [save_loop _ _ (processed ++ [?s]) rest ?u] =>
            destruct (IH (processed ++ [s]) u) as (todo' & -> & Hall);
            exists (s :: todo')
        end;
        (split;
         [rewrite <- app_assoc; simpl;
          by rewrite ?orb_true_r, ?orb_true_l, ?orb_false_l|]);
        (apply Forall_cons; split; [|done]);
        unfold lacks_diff; simpl; rewrite ?Hd, ?Hm;
        repeat match goal with
               | |- context [diff_binary ?l ?i] =>
                   let H := fresh in
                   pose proof (Hdiff l i) as H;
                   destruct (diff_binary l i); [done|clear H]
               | |- context [mask_binary ?l ?i] =>
                   let H := fresh in
                   pose proof (Hmask l i) as H;
                   destruct (mask_binary l i); [done|clear H]
               end;
        simpl; by rewrite ?andb_false_r.
    + rewrite bool_decide_eq_false_2 by (intros H; by apply H).
      destruct (IH (processed ++ [screenshot]) data_updated)
        as (todo' & -> & Hall).
      exists (screenshot :: todo'). split.
      * by rewrite <- app_assoc.
      * apply Forall_cons. split; [|done]. unfold lacks_diff.
        rewrite Hprev. by rewrite bool_decide_eq_false_2 by (intros H; by apply H).
Qed.

(** X20: when the conversion of a diff to PNG bytes never gives the empty
    bytes, a second call of [save_screenshot_diff] on the result of a first
    one changes no screenshot and does not write to the database. *)
Theorem save_screenshot_diff_twice
    (diff_binary mask_binary : list ScreenshotDiff → nat → list Byte.byte)
    (screenshots : list ScreenshotDiff) :
  (∀ screenshots i, diff_binary screenshots i ≠ []) →
  (∀ screenshots i, mask_binary screenshots i ≠ []) →
  save_screenshot_diff diff_binary mask_binary
    (save_screenshot_diff diff_binary mask_binary screenshots).1
  = ((save_screenshot_diff diff_binary mask_binary screenshots).1, false).
Proof.
  intros Hdiff Hmask. unfold save_screenshot_diff.
  destruct (save_loop_leaves_nothing_to_do diff_binary mask_binary []
              screenshots false Hdiff Hmask) as (todo' & -> & Hall).
  simpl. by apply save_loop_nothing_to_do.
Qed.

Lemma save_screenshot_diff_twice_witness :
  save_screenshot_diff (λ _ _, [Byte.x89]) (λ _ _, [Byte.x50])
    (save_screenshot_diff (λ _ _, [Byte.x89]) (λ _ _, [Byte.x50])
       [{| prev := Some 0%nat; png_diff_data := None;
           png_diff_mask_data := Some [] |};
        {| prev := Some 0%nat; png_diff_data := Some [Byte.x01];
           png_diff_mask_data := None |}]).1
  = ((save_screenshot_diff (λ _ _, [Byte.x89]) (λ _ _, [Byte.x50])
        [{| prev := Some 0%nat; png_diff_data := None;
            png_diff_mask_data := Some [] |};
         {| prev := Some 0%nat; png_diff_data := Some [Byte.x01];
            png_diff_mask_data := None |}]).1, false).
Proof. apply save_screenshot_diff_twice; done. Defined.

(** ** [get_screenshots] *)

Lemma zip_seq_successors (a k m : nat) :
  (k ≤ m)%nat →
  zip (seq a m) (seq (S a) k) = (λ i, (i, S i)) <$> seq a k.
Proof.
  revert a m. induction k as [|k IH]; intros a m Hle.
  - simpl. by destruct (seq a m).
  - destruct m as [|m]; [lia|]. simpl. f_equal. apply IH. lia.
Qed.

Lemma lookup_foldl_set_prev (k a : nat) (l : list ScreenshotDiff) (j : nat) :
  foldl (λ l pair, alter (set_prev pair.1) pair.2 l) l
    ((λ i, (i, S i)) <$> seq a k) !! j
  = if bool_decide (a < j ≤ a + k)%nat then set_prev (j - 1) <$> l !! j
    else l !! j.
Proof.
  revert a l. induction k as [|k IH]; intros a l.
  - simpl. by rewrite bool_decide_eq_false_2 by lia.
  - cbn [seq fmap list_fmap foldl]. rewrite IH. cbn [fst snd].
    destruct (decide (j = S a)) as [->|Hne].
    + rewrite bool_decide_eq_false_2 by lia.
      rewrite bool_decide_eq_true_2 by lia.
      rewrite list_lookup_alter_eq. by replace (S a - 1)%nat with a by lia.
    + rewrite list_lookup_alter_ne by done.
      apply (f_equal (λ b : bool, if b then _ else _)).
      apply bool_decide_ext. lia.
Qed.

Lemma lookup_link_prev (l : list ScreenshotDiff) (j : nat) :
  link_prev l !! j = set_prev (Nat.pred j) <$> l !! j.
Proof.
  unfold link_prev. rewrite zip_seq_successors by lia.
  set (linked := foldl _ _ _).
  assert (∀ i, linked !! i
               = if bool_decide (0 < i ≤ length l - 1)%nat
                 then set_prev (i - 1) <$> l !! i else l !! i) as Hlinked.
  { intros i. unfold linked. rewrite lookup_foldl_set_prev.
    apply (f_equal (λ b : bool, if b then _ else _)).
    apply bool_decide_ext. lia. }
  assert (match linked with
          | [] => linked
          | _ :: _ => alter (set_prev 0) 0%nat linked
          end = alter (set_prev 0) 0%nat linked) as -> by by destruct linked.
  destruct j as [|j].
  - rewrite list_lookup_alter_eq, Hlinked.
    by rewrite bool_decide_eq_false_2 by lia.
  - rewrite list_lookup_alter_ne by done. rewrite Hlinked.
    case_bool_decide as Hj.
    + simpl. by rewrite Nat.sub_0_r.
    + rewrite lookup_ge_None_2; [done|]. lia.
Qed.

(** X21: [get_screenshots] returns as many screenshots as the query gave,
    in the same order, and every one of them has a [prev]: the first is its
    own [prev], each other one has the screenshot before it.  Without
    [SAVE_SCREENSHOT_DIFF] the diffs and masks are as stored and nothing is
    written; with it, the database is written exactly when a stored
    screenshot lacks a diff or a mask. *)
Theorem get_screenshots_links_every_screenshot
    (diff_binary mask_binary : list ScreenshotDiff → nat → list Byte.byte)
    (SAVE_SCREENSHOT_DIFF : bool) (stored : Z → list ScreenshotDiff)
    (recording : Recording) :
  let result := get_screenshots diff_binary mask_binary SAVE_SCREENSHOT_DIFF
                  stored recording in
  length result.1 = length (stored (id recording))
  ∧ (∀ i screenshot, result.1 !! i = Some screenshot →
       prev screenshot = Some (Nat.pred i))
  ∧ (SAVE_SCREENSHOT_DIFF = false →
     result.2 = false
     ∧ ∀ i screenshot, result.1 !! i = Some screenshot →
         ∃ before, stored (id recording) !! i = Some before
                   ∧ png_diff_data screenshot = png_diff_data before
                   ∧ png_diff_mask_data screenshot = png_diff_mask_data before)
  ∧ (SAVE_SCREENSHOT_DIFF = true →
     result.2
     = existsb (λ s, negb (truthy (png_diff_data s)
                           && truthy (png_diff_mask_data s)))
         (stored (id recording))).
Proof.
  intros result. unfold result, get_screenshots.
  set (l := stored (id recording)).
  assert (length (link_prev l) = length l) as Hlen.
  { apply Nat.le_antisymm.
    - apply Nat.nlt_ge. intros Hlt.
      destruct (lookup_lt_is_Some_2 (link_prev l) (length l) Hlt) as [s Hs].
      rewrite lookup_link_prev, lookup_ge_None_2 in Hs by lia. done.
    - apply Nat.nlt_ge. intros Hlt.
      destruct (lookup_lt_is_Some_2 l (length (link_prev l)) Hlt) as [s Hs].
      pose proof (lookup_link_prev l (length (link_prev l))) as Hl.
      rewrite Hs, lookup_ge_None_2 in Hl by lia. done. }
  destruct SAVE_SCREENSHOT_DIFF.
  - destruct (save_loop_spec diff_binary mask_binary [] (link_prev l) false)
      as (todo' & Hrun & Hall).
    unfold save_screenshot_diff. rewrite Hrun. simpl.
    split; [by rewrite <- (Forall2_length _ _ _ Hall)|].
    split; [|split; [done|]].
    + intros i screenshot Hi.
      destruct (Forall2_lookup_r _ _ _ _ _ Hall Hi) as (before & Hb & Hfill).
      rewrite lookup_link_prev in Hb.
      destruct (l !! i) as [s|]; [|done]. injection Hb as <-.
      by destruct Hfill as [-> _].
    + intros _. clear Hrun Hall. revert Hlen.
      assert (∀ j s, link_prev l !! j = Some s →
                ∃ b, l !! j = Some b ∧ s = set_prev (Nat.pred j) b) as Hlink.
      { intros j s Hs. rewrite lookup_link_prev in Hs.
        destruct (l !! j) as [b|]; [|done]. injection Hs as <-. eauto. }
      generalize (link_prev l) Hlink. clear.
      induction l as [|b l IH] using rev_ind; intros linked Hlink Hlen.
      * by destruct linked.
      * destruct linked as [|s linked _] using rev_ind.
        { rewrite length_app in Hlen. simpl in Hlen. lia. }
        rewrite !length_app in Hlen. simpl in Hlen.
        rewrite !existsb_app. simpl. rewrite !orb_false_r.
        f_equal.
        -- apply IH; [|lia]. intros j s' Hs'.
           assert (j < length linked)%nat as Hj by by eapply lookup_lt_Some.
           destruct (Hlink j s') as (b' & Hb' & ->).
           { by rewrite lookup_app_l. }
           rewrite lookup_app_l in Hb' by lia. eauto.
        -- destruct (Hlink (length linked) s) as (b' & Hb' & ->).
           { by rewrite list_lookup_middle. }
           replace (length linked) with (length l) in Hb' by lia.
           rewrite list_lookup_middle in Hb' by done. injection Hb' as <-.
           unfold lacks_diff, set_prev.
           cbn [prev png_diff_data png_diff_mask_data].
           by rewrite bool_decide_eq_true_2.
  - simpl. split; [done|]. split; [|split; [|done]].
    + intros i screenshot Hi. rewrite lookup_link_prev in Hi.
      destruct (l !! i) as [s|]; [|done]. by injection Hi as <-.
    + intros _. split; [done|]. intros i screenshot Hi.
      rewrite lookup_link_prev in Hi.
      destruct (l !! i) as [s|]; [|done]. injection Hi as <-. eauto.
Qed.

Lemma get_screenshots_links_every_screenshot_witness :
  (get_screenshots (λ _ _, [Byte.x89]) (λ _ _, [Byte.x50]) true
     (λ _, [{| prev := None; png_diff_data := Some [Byte.x01];
               png_diff_mask_data := Some [Byte.x02] |};
            {| prev := None; png_diff_data := None;
               png_diff_mask_data := None |}])
     {| id := 3; timestamp := PyInt 0; task_description := PyNone |}).2
  = existsb (λ s, negb (truthy (png_diff_data s)
                        && truthy (png_diff_mask_data s)))
      [{| prev := None; png_diff_data := Some [Byte.x01];
          png_diff_mask_data := Some [Byte.x02] |};
       {| prev := None; png_diff_data := None;
          png_diff_mask_data := None |}].
Proof.
  apply (proj2 (proj2 (proj2 (get_screenshots_links_every_screenshot
           (λ _ _, [Byte.x89]) (λ _ _, [Byte.x50]) true
           (λ _, [{| prev := None; png_diff_data := Some [Byte.x01];
                     png_diff_mask_data := Some [Byte.x02] |};
                  {| prev := None; png_diff_data := None;
                     png_diff_mask_data := None |}])
           {| id := 3; timestamp := PyInt 0; task_description := PyNone |})))).
  reflexivity.
Defined.

(** ** [copy_recording] *)

Section copy_properties.
Variable Obj : Type.
Variable attr : Obj → string → option Z.
Variable related : Obj → string → list Obj.
Variable copy_sa_instance : Obj → list (string * option Z) → Obj.
Variable refresh : list Obj → Obj → Obj.

(** The loop saves one copy per child, in order, after what was saved. *)
Lemma copy_children_saves children new_recording mapping saved :
  (copy_children Obj attr copy_sa_instance refresh children new_recording
     mapping saved).1
  = saved ++ ((λ child, copy_sa_instance child
                          [("recording_id", attr new_recording "id")])
              <$> children)
  ∧ ∃ mapping',
      (copy_children Obj attr copy_sa_instance refresh children new_recording
         mapping saved).2 = Returned mapping'.
Proof.
  revert mapping saved.
  induction children as [|child rest IH]; intros mapping saved.
  - simpl. rewrite app_nil_r. eauto.
  - cbn [copy_children]. unfold mbind, M_bind, add_commit_refresh.
    destruct (IH (<[attr child "id" :=
                     attr (refresh (saved ++ [copy_sa_instance child
                                      [("recording_id", attr new_recording "id")]])
                             (copy_sa_instance child
                                [("recording_id", attr new_recording "id")]))
                          "id"]> mapping)
                (saved ++ [copy_sa_instance child
                             [("recording_id", attr new_recording "id")]]))
      as [-> Hret].
    split; [|done]. by rewrite fmap_cons, <- app_assoc.
Qed.



(** The whole call: what is saved and what is returned. *)
Lemma copy_recording_value (recording : Obj) (saved : list Obj) :
  let new_recording :=
    refresh (saved ++ [copy_sa_instance recording
                         [("original_recording_id", attr recording "id")]])
      (copy_sa_instance recording
         [("original_recording_id", attr recording "id")]) in
  let copy child :=
    copy_sa_instance child [("recording_id", attr new_recording "id")] in
  let saved1 :=
    saved ++ [copy_sa_instance recording
                [("original_recording_id", attr recording "id")]] in
  let saved2 := saved1 ++ (copy <$> related recording "screenshots") in
  let saved3 := saved2 ++ (copy <$> related recording "window_events") in
  ∃ m1 m2,
    (copy_children Obj attr copy_sa_instance refresh
       (related recording "screenshots") new_recording ∅ saved1).2
    = Returned m1
    ∧ copy_recording Obj attr related copy_sa_instance refresh recording saved
      = match related recording "action_events" with
        | [] => (saved3, Returned None)
        | action_event :: _ =>
            (saved3
             ++ [copy_sa_instance action_event
                   [("recording_id", attr new_recording "id");
                    ("screenshot_id",
                     dict_get m1 (attr action_event "screenshot_id"));
                    ("window_event_id",
                     dict_get m2 (attr action_event "window_event_id"))]],
             Returned (Some new_recording))
        end.
Proof.
  intros new_recording copy saved1 saved2 saved3.
  destruct (copy_children_saves (related recording "screenshots")
              new_recording ∅ saved1) as [Hs1 [m1 Hm1]].
  destruct (copy_children_saves (related recording "window_events")
              new_recording ∅ saved2) as [Hs2 [m2 Hm2]].
  exists m1, m2. split; [done|].
  unfold copy_recording, mbind, M_bind, add_commit_refresh, add_commit.
  fold new_recording saved1.
  destruct (copy_children Obj attr copy_sa_instance refresh
              (related recording "screenshots") new_recording ∅ saved1)
    as [s2 o2]. simpl in Hs1, Hm1. subst s2 o2. fold copy saved2.
  destruct (copy_children Obj attr copy_sa_instance refresh
              (related recording "window_events") new_recording ∅ saved2)
    as [s3 o3]. simpl in Hs2, Hm2. subst s3 o3. fold copy saved3.
  by destruct (related recording "action_events").
Qed.

(** X22: [copy_recording] saves a copy of the recording, then a copy of
    every screenshot and of every window event of it, in order, and then a
    copy of the first action event only.  It returns the new recording when
    the recording has an action event and [None] when it has none, although
    the copies made until then are saved. *)
Theorem copy_recording_copies_one_action_event
    (recording : Obj) (saved : list Obj) :
  let run := copy_recording Obj attr related copy_sa_instance refresh
               recording saved in
  let new_recording :=
    refresh (saved ++ [copy_sa_instance recording
                         [("original_recording_id", attr recording "id")]])
      (copy_sa_instance recording
         [("original_recording_id", attr recording "id")]) in
  let copy child :=
    copy_sa_instance child [("recording_id", attr new_recording "id")] in
  ∃ copied_action_events,
    run.1 = saved
            ++ [copy_sa_instance recording
                  [("original_recording_id", attr recording "id")]]
            ++ (copy <$> related recording "screenshots")
            ++ (copy <$> related recording "window_events")
            ++ copied_action_events
    ∧ match related recording "action_events" with
      | [] => copied_action_events = [] ∧ run.2 = Returned None
      | action_event :: _ =>
          run.2 = Returned (Some new_recording)
          ∧ ∃ new_screenshot_id new_window_event_id,
              copied_action_events
              = [copy_sa_instance action_event
                   [("recording_id", attr new_recording "id");
                    ("screenshot_id", new_screenshot_id);
                    ("window_event_id", new_window_event_id)]]
      end.
Proof.
  intros run new_recording copy. unfold run.
  destruct (copy_recording_value recording saved) as (m1 & m2 & _ & ->).
  fold new_recording copy.
  destruct (related recording "action_events") as [|action_event rest].
  - exists []. simpl. split; [|done]. by rewrite app_nil_r, <- !app_assoc.
  - eexists. simpl. split; [|split; [done|eauto]]. by rewrite <- !app_assoc.
Qed.

End copy_properties.


(** ** [_insert] without a buffer *)

(** X24: called without a buffer, [_insert] fails its assertion and changes
    nothing when a key of [event_data] is not a column; otherwise it hands
    the session exactly its own row, and returns the result when the session
    accepts the insert and the commit, or leaves with the session's
    exception.  The five buffers stay as they are in every case, also when
    they hold rows. *)
Theorem _insert_without_buffer
    (accepts : Session) (event_data : gmap string Any) (table : Table)
    (s : Store) :
  let run := _insert accepts event_data table None s in
  let row := (fill_row event_data table).1 in
  (∀ b, buffers run.1 b = buffers s b)
  ∧ ((∃ key, is_Some (event_data !! key) ∧ key ∉ columns table) →
     run = (s, Raised AssertionError))
  ∧ ((∀ key, is_Some (event_data !! key) → key ∈ columns table) →
     run.2 = (if committed accepts (db s) table [row]
              then Returned (Some CursorResult) else Raised SessionError)
     ∧ db run.1 = db s ++ received accepts (db s) table [row]).
Proof.
  intros run row. unfold run, row.
  destruct (decide (size (fill_row event_data table).2 = 0%nat)) as [He|Hne].
  - destruct (_insert_passes accepts event_data table None s He)
      as (Hrun & Hdb & Hbuf & _).
    split; [|split].
    + intros b. rewrite Hbuf. by rewrite bool_decide_eq_false_2.
    + intros Hkey. by apply leftover_key in Hkey.
    + intros _. split; [exact Hrun|exact Hdb].
  - rewrite _insert_raises by done. split; [done|]. split; [done|].
    intros Hkeys. by apply fill_row_leftover_empty in Hkeys.
Qed.

(** ** [filter_stop_sequences]: how many events are popped *)

Lemma scan_sequences_skip_counts earlier counts rest i events n :
  Forall2 (λ seq c, ∃ idx, scan_candidate seq events = Returned (idx, c)
                           ∧ idx ≠ -1) earlier counts →
  scan_sequences (earlier ++ rest) i events n
  = scan_sequences rest (i + Z.of_nat (length earlier)) events
      (n + sum_list counts)%nat.
Proof.
  intros Hall. revert i n.
  induction Hall as [|seq c earlier counts (idx & Hscan & Hne) _ IH];
    intros i n.
  - simpl. f_equal; lia.
  - cbn [app scan_sequences]. rewrite scan_candidate_from, Hscan. simpl.
    rewrite bool_decide_eq_false_2 by done.
    rewrite IH. f_equal; [simpl; lia|]. simpl. lia.
Qed.

(** X25: [num_to_remove] is never reset between candidates.  When a
    candidate completes after the candidates before it fell short, the
    number of events to pop is what its own scan counted plus what the scans
    of all the candidates before it counted: that many events are removed
    from the end, or, if there are fewer events, all of them are removed and
    IndexError is raised. *)
Theorem popped_events_add_up
    (earlier later : list (list string)) (counts : list nat)
    (seq : list string) (events : list ActionEvent) (n : nat) :
  ctrl_c_tail events = false →
  Forall2 (λ seq' c, ∃ idx, scan_candidate seq' events = Returned (idx, c)
                            ∧ idx ≠ -1) earlier counts →
  scan_candidate seq events = Returned (-1, n) →
  let total := (sum_list counts + n)%nat in
  scan_sequences (earlier ++ seq :: later) 0 events 0
  = Returned (Z.of_nat (length earlier), total)
  ∧ filter_stop_sequences (earlier ++ seq :: later) events
    = if bool_decide (total ≤ length events)%nat
      then (take (length events - total) events, Returned tt)
      else ([], Raised IndexError).
Proof.
  intros Hctrl Hshort Hdone total.
  assert (scan_sequences (earlier ++ seq :: later) 0 events 0
          = Returned (Z.of_nat (length earlier), total)) as Hscan.
  { rewrite (scan_sequences_skip_counts earlier counts) by done.
    cbn [scan_sequences]. rewrite scan_candidate_from, Hdone. simpl.
    unfold total. f_equal. f_equal. lia. }
  split; [done|].
  rewrite filter_stop_sequences_cases, Hctrl, Hscan.
  by rewrite bool_decide_eq_true_2 by lia.
Qed.

Lemma popped_events_add_up_witness :
  scan_sequences ([["a"; "b"]] ++ ["x"; "b"] :: []) 0
    [press_char "x"; press_char "b"] 0
  = Returned (Z.of_nat (length [["a"; "b"]]), (sum_list [1%nat] + 2)%nat)
  ∧ filter_stop_sequences ([["a"; "b"]] ++ ["x"; "b"] :: [])
      [press_char "x"; press_char "b"]
    = if bool_decide (sum_list [1%nat] + 2
                      ≤ length [press_char "x"; press_char "b"])%nat
      then (take (length [press_char "x"; press_char "b"]
                  - (sum_list [1%nat] + 2))
              [press_char "x"; press_char "b"], Returned tt)
      else ([], Raised IndexError).
Proof.
  apply (popped_events_add_up [["a"; "b"]] [] [1%nat] ["x"; "b"]
           [press_char "x"; press_char "b"] 2).
  - reflexivity.
  - constructor; [|constructor]. exists 0. split; [reflexivity|lia].
  - reflexivity.
Defined.

(** ** The [insert_*] functions, call after call *)

(** X26: from the module's initial state, after any series of calls of the
    five [insert_*] functions (a call that fails its assertion is passed
    over) in which the session accepted every [execute] and [commit] it
    received, the session has received nothing but pairs of one [execute]
    with exactly one row and one [commit]: every row was committed on its
    own. *)
Theorem every_row_is_committed_on_its_own
    (accepts : Session)
    (ActionEvent_table Screenshot_table WindowEvent_table
       PerformanceStat_table MemoryStat_table : Table)
    (calls : list insert_call) (rows : list Recording) :
  let s := run_calls accepts ActionEvent_table Screenshot_table
             WindowEvent_table PerformanceStat_table MemoryStat_table calls
             (initial_store rows) in
  accepted accepts [] (db s) = true →
  one_row_per_commit (db s).
Proof.
  intros s Hacc.
  destruct (run_calls_accepted accepts ActionEvent_table Screenshot_table
              WindowEvent_table PerformanceStat_table MemoryStat_table calls
              (initial_store rows)) as [_ [inserted Hlog]]; [done|exact Hacc|].
  exists inserted. exact Hlog.
Qed.

Lemma every_row_is_committed_on_its_own_witness :
  one_row_per_commit
    (db (run_calls int64_session MemoryStat_example MemoryStat_example
           MemoryStat_example MemoryStat_example MemoryStat_example
           [CallMemoryStat example_recording 4096 (PyInt 101);
            CallPerfStat example_recording "action" (PyInt 101) (PyInt 102);
            CallMemoryStat example_recording 8192 (PyInt 103)]
           (initial_store []))).
Proof.
  apply (every_row_is_committed_on_its_own int64_session).
  vm_compute. reflexivity.
Defined.
